(** * Toolbar overflow layout and popup accessibility behaviour

    A shallow embedding of
    - [packages/fluentui/react-northstar/src/components/Toolbar/Toolbar.tsx]
      (the closures [hide], [show], [isItemOverflowing], [wouldItemCollide],
      [setOverflowPosition] and [hideOverflowItems] of the [Toolbar]
      component), and
    - the [popupBehavior] accessibility behaviour with its helpers
      [isFocusable] and [getAriaAttributeFromProps],
    followed by the properties of the specification that concern them. *)

From stdpp Require Import base option list gmap strings pretty.
From Stdlib Require Import ZArith Lia.

Open Scope Z_scope.

(** A DOM element is identified by a handle; JavaScript's [===] on elements
    is equality of handles. *)
Abbreviation Elem := positive.

Module Toolbar.

(** ** Data model *)

(** [ClientRect], restricted to the four fields the component reads.  Pixel
    measures are integers here: the development speaks of layouts measured
    in whole pixels, on which the floating-point arithmetic of the source is
    exact. *)
Record ClientRect := mkRect {
  r_left : Z;
  r_right : Z;
  r_top : Z;
  r_width : Z;
}.

(** [type PositionOffset] of the source. *)
Record PositionOffset := mkOffset {
  vertical : Z;
  horizontal : Z;
}.

(** The part of an element that the component mutates: three inline style
    properties and the attribute table.  An inline style property that is
    not set reads as the empty string; [getAttribute] of a missing attribute
    is [None] (JavaScript's [null]). *)
Record ElemState := mkElem {
  style_visibility : string;
  style_position : string;
  style_left : string;
  style_right : string;
  attributes : gmap string string;
}.

Definition blank : ElemState :=
  {| style_visibility := ""; style_position := ""; style_left := "";
     style_right := ""; attributes := ∅ |}.

#[global] Instance ElemState_inhabited : Inhabited ElemState := populate blank.

(** Calls that leave the component: [scrollTo] on the overflow container and
    the [onOverflow] callback of the props.  The argument of [OnOverflow] is
    [None] when the JavaScript number is [NaN]. *)
Inductive Call :=
  | ScrollTo (x y : Z)
  | OnOverflow (itemsVisible : option Z).

(** The mutable state a layout pass works on: the elements, the document's
    [activeElement], the ref [lastVisibleItemIndex] (undefined until the first
    pass has run) and the calls made so far, oldest first. *)
Record World := mkWorld {
  elems : gmap positive ElemState;
  activeElement : option Elem;
  lastVisibleItemIndex : option Z;
  calls : list Call;
}.

(** What a pass only reads.  Geometry ([getBoundingClientRect], the computed
    margins) is part of it: the component never moves an ordinary item, hiding
    an element leaves it in the layout, and a pass has read every rectangle
    it uses before it writes a position.

    [marginLeft] and [marginRight] give [parseFloat] of the computed style,
    [None] standing for [NaN].

    [focusableArea els el] tells whether the document, its elements being
    in the state [els], lets [el.focus()] move the focus to [el]: the
    element is a focusable area (focusable by its kind or its tab index,
    rendered, not disabled).  On any other element [focus()] does nothing.

    [IS_FOCUSABLE_ATTRIBUTE] and [getFirstFocusable] are imported by the
    source from [@fluentui/accessibility] and [@fluentui/react-bindings];
    they are parameters of the development. *)
Record Env := mkEnv {
  (* context *)
  rtl : bool;
  (* props *)
  items_length : Z;
  overflowOpen : bool;
  onOverflow : bool;
  (* refs *)
  overflowContainerRef : option Elem;
  overflowItemRef : option Elem;
  offsetMeasureRef : option Elem;
  containerRef : option Elem;
  (* document *)
  children : Elem → list Elem;
  firstElementChild : Elem → option Elem;
  contains : Elem → Elem → bool;
  focusableArea : gmap positive ElemState → Elem → bool;
  getBoundingClientRect : Elem → ClientRect;
  marginLeft : Elem → option Z;
  marginRight : Elem → option Z;
  (* imports *)
  IS_FOCUSABLE_ATTRIBUTE : string;
  getFirstFocusable : gmap positive ElemState → Elem → option Elem → option Elem;
}.

Definition WAS_FOCUSABLE_ATTRIBUTE : string := "data-was-focusable".

Definition MAX_SAFE_INTEGER : Z := 2 ^ 53 - 1.

(** JavaScript truthiness of the result of [getAttribute]: [null] and the
    empty string are falsy. *)
Definition truthy (v : option string) : bool :=
  match v with
  | Some s => negb (String.eqb s "")
  | None => false
  end.

(** [parseFloat(...) || 0]. *)
Definition orZero (v : option Z) : Z := default 0 v.

(** The template literal [`${n}px`]. *)
Definition px (n : Z) : string := pretty n +:+ "px".

(** ** Element access *)

Definition getElem (w : World) (el : Elem) : ElemState := elems w !!! el.

Definition setElem (el : Elem) (st : ElemState) (w : World) : World :=
  {| elems := <[el := st]> (elems w); activeElement := activeElement w;
     lastVisibleItemIndex := lastVisibleItemIndex w; calls := calls w |}.

Definition setLastVisibleItemIndex (i : Z) (w : World) : World :=
  {| elems := elems w; activeElement := activeElement w;
     lastVisibleItemIndex := Some i; calls := calls w |}.

Definition call (c : Call) (w : World) : World :=
  {| elems := elems w; activeElement := activeElement w;
     lastVisibleItemIndex := lastVisibleItemIndex w; calls := calls w ++ [c] |}.

(** [el.focus()]: the focus moves to [el] when [el] is a focusable area,
    and stays where it is otherwise. *)
Definition focus (e : Env) (el : Elem) (w : World) : World :=
  if focusableArea e (elems w) el
  then {| elems := elems w; activeElement := Some el;
          lastVisibleItemIndex := lastVisibleItemIndex w; calls := calls w |}
  else w.

Definition setVisibility (v : string) (st : ElemState) : ElemState :=
  {| style_visibility := v; style_position := style_position st;
     style_left := style_left st; style_right := style_right st;
     attributes := attributes st |}.

Definition setPosition (v : string) (st : ElemState) : ElemState :=
  {| style_visibility := style_visibility st; style_position := v;
     style_left := style_left st; style_right := style_right st;
     attributes := attributes st |}.

Definition setLeft (v : string) (st : ElemState) : ElemState :=
  {| style_visibility := style_visibility st; style_position := style_position st;
     style_left := v; style_right := style_right st;
     attributes := attributes st |}.

Definition setRight (v : string) (st : ElemState) : ElemState :=
  {| style_visibility := style_visibility st; style_position := style_position st;
     style_left := style_left st; style_right := v;
     attributes := attributes st |}.

Definition setAttributes (a : gmap string string) (st : ElemState) : ElemState :=
  {| style_visibility := style_visibility st; style_position := style_position st;
     style_left := style_left st; style_right := style_right st;
     attributes := a |}.

Definition getAttribute (name : string) (st : ElemState) : option string :=
  attributes st !! name.

Definition setAttribute (name v : string) (st : ElemState) : ElemState :=
  setAttributes (<[name := v]> (attributes st)) st.

Definition removeAttribute (name : string) (st : ElemState) : ElemState :=
  setAttributes (delete name (attributes st)) st.

(** [el.style.visibility === 'hidden'] *)
Definition isHidden (w : World) (el : Elem) : bool :=
  String.eqb (style_visibility (getElem w el)) "hidden".

(** [context.target.activeElement === el || el.contains(context.target.activeElement)] *)
Definition holdsFocus (e : Env) (el : Elem) (w : World) : bool :=
  match activeElement w with
  | Some a => Pos.eqb a el || contains e el a
  | None => false
  end.

(** ** The visibility toggler *)

Section Toggler.
Variable e : Env.

Definition hide (el : Elem) (w : World) : World :=
  if isHidden w el then w
  else
    let w :=
      if holdsFocus e el w then
        match containerRef e with
        | Some container =>
            match getFirstFocusable e (elems w) container (firstElementChild e container) with
            | Some firstFocusableItem => focus e firstFocusableItem w
            | None => w
            end
        | None => w
        end
      else w in
    let w := setElem el (setVisibility "hidden" (getElem w el)) w in
    let wasFocusable := getAttribute (IS_FOCUSABLE_ATTRIBUTE e) (getElem w el) in
    let w :=
      match wasFocusable with
      | Some v =>
          if truthy wasFocusable
          then setElem el (setAttribute WAS_FOCUSABLE_ATTRIBUTE v (getElem w el)) w
          else w
      | None => w
      end in
    setElem el (setAttribute (IS_FOCUSABLE_ATTRIBUTE e) "false" (getElem w el)) w.

Definition show (el : Elem) (w : World) : bool * World :=
  if negb (isHidden w el) then (false, w)
  else
    let w := setElem el (setVisibility "" (getElem w el)) w in
    let wasFocusable := getAttribute WAS_FOCUSABLE_ATTRIBUTE (getElem w el) in
    let w :=
      match wasFocusable with
      | Some v =>
          if truthy wasFocusable
          then
            let w := setElem el (setAttribute (IS_FOCUSABLE_ATTRIBUTE e) v (getElem w el)) w in
            setElem el (removeAttribute WAS_FOCUSABLE_ATTRIBUTE (getElem w el)) w
          else setElem el (removeAttribute (IS_FOCUSABLE_ATTRIBUTE e) (getElem w el)) w
      | None => setElem el (removeAttribute (IS_FOCUSABLE_ATTRIBUTE e) (getElem w el)) w
      end in
    (true, w).

End Toggler.

(** *** The toggler, element by element

    [hide] and [show] rewrite one element; [hiddenState] and [shownState]
    are the states they leave it in, [refocus] is the focus move of [hide].
    The lemmas [hide_eq] and [show_eq] relate them to the closures above. *)

Section TogglerForms.
Variable e : Env.

Definition hiddenState (st : ElemState) : ElemState :=
  let st := setVisibility "hidden" st in
  let wasFocusable := getAttribute (IS_FOCUSABLE_ATTRIBUTE e) st in
  let st :=
    match wasFocusable with
    | Some v => if truthy wasFocusable then setAttribute WAS_FOCUSABLE_ATTRIBUTE v st else st
    | None => st
    end in
  setAttribute (IS_FOCUSABLE_ATTRIBUTE e) "false" st.

Definition shownState (st : ElemState) : ElemState :=
  let st := setVisibility "" st in
  let wasFocusable := getAttribute WAS_FOCUSABLE_ATTRIBUTE st in
  match wasFocusable with
  | Some v =>
      if truthy wasFocusable
      then removeAttribute WAS_FOCUSABLE_ATTRIBUTE (setAttribute (IS_FOCUSABLE_ATTRIBUTE e) v st)
      else removeAttribute (IS_FOCUSABLE_ATTRIBUTE e) st
  | None => removeAttribute (IS_FOCUSABLE_ATTRIBUTE e) st
  end.

(** Where [hide] leaves the focus when it does hide. *)
Definition refocus (el : Elem) (w : World) : World :=
  if holdsFocus e el w then
    match containerRef e with
    | Some container =>
        match getFirstFocusable e (elems w) container (firstElementChild e container) with
        | Some firstFocusableItem => focus e firstFocusableItem w
        | None => w
        end
    | None => w
    end
  else w.

End TogglerForms.

(** ** Geometry tests *)

(** Checks if [item] overflows a [container]. *)
Definition isItemOverflowing (itemBoundingRect containerBoundingRect : ClientRect) : bool :=
  (r_right containerBoundingRect <? r_right itemBoundingRect)
  || (r_left itemBoundingRect <? r_left containerBoundingRect).

Section Layout.
Variable e : Env.

(** Checks if [item] would collide with the eventual position of the
    overflow item. *)
Definition wouldItemCollide (item : Elem)
    (itemBoundingRect overflowItemBoundingRect containerBoundingRect : ClientRect) : bool :=
  if rtl e then
    let itemLeftMargin := orZero (marginLeft e item) in
    r_left itemBoundingRect - r_width overflowItemBoundingRect - itemLeftMargin
      <? r_left containerBoundingRect
  else
    let itemRightMargin := orZero (marginRight e item) in
    r_right containerBoundingRect
      <? r_right itemBoundingRect + r_width overflowItemBoundingRect + itemRightMargin.

(** Positions the overflow item next to the last visible item.  The
    source's [$lastVisibleItem] and [lastVisibleItemRect] are assigned
    together and travel as one optional pair. *)
Definition setOverflowPosition (overflowItem : Elem)
    (lastVisible : option (Elem * ClientRect))
    (containerBoundingRect : ClientRect)
    (absolutePositioningOffset : PositionOffset) (w : World) : World :=
  match lastVisible with
  | Some (lastVisibleItem, lastVisibleItemRect) =>
      if rtl e then
        let lastVisibleItemMarginLeft := orZero (marginLeft e lastVisibleItem) in
        setElem overflowItem
          (setRight (px (r_right containerBoundingRect - r_left lastVisibleItemRect
                         + lastVisibleItemMarginLeft
                         + horizontal absolutePositioningOffset))
                    (getElem w overflowItem)) w
      else
        let lastVisibleItemRightMargin := orZero (marginRight e lastVisibleItem) in
        setElem overflowItem
          (setLeft (px (r_right lastVisibleItemRect - r_left containerBoundingRect
                        + lastVisibleItemRightMargin
                        + horizontal absolutePositioningOffset))
                   (getElem w overflowItem)) w
  | None =>
      let w := setLastVisibleItemIndex (-1) w in
      if rtl e then
        setElem overflowItem
          (setRight (px (horizontal absolutePositioningOffset)) (getElem w overflowItem)) w
      else
        setElem overflowItem
          (setLeft (px (horizontal absolutePositioningOffset)) (getElem w overflowItem)) w
  end.

(** The inline position [setOverflowPosition] gives the overflow item. *)
Definition landing (lv : option (Elem * ClientRect)) (cRect : ClientRect)
    (off : PositionOffset) : string :=
  match lv with
  | Some (x, r) =>
      if rtl e
      then px (r_right cRect - r_left r + orZero (marginLeft e x) + horizontal off)
      else px (r_right r - r_left cRect + orZero (marginRight e x) + horizontal off)
  | None => px (horizontal off)
  end.

(** ** The visibility scanner *)

(** What the two commented-out [console.log] calls of the source would
    print: [Overflow i] where item [i] is found out of the crop rectangle,
    [Collision i wouldCollide] where [wouldItemCollide] is evaluated for
    item [i]. *)
Inductive Probe :=
  | Overflow (i : nat)
  | Collision (i : nat) (wouldCollide : bool).

(** The [let] variables of [hideOverflowItems] that the loop updates,
    with the probes in the order they were made. *)
Record Locals := mkLocals {
  isOverflowing : bool;
  lastVisible : option (Elem * ClientRect);
  probes : list Probe;
}.

Definition initLocals : Locals :=
  {| isOverflowing := false; lastVisible := None; probes := [] |}.

Definition probe (p : Probe) (l : Locals) : Locals :=
  {| isOverflowing := isOverflowing l; lastVisible := lastVisible l;
     probes := probes l ++ [p] |}.

Definition setOverflowing (l : Locals) : Locals :=
  {| isOverflowing := true; lastVisible := lastVisible l; probes := probes l |}.

Definition setLastVisible (item : Elem) (r : ClientRect) (l : Locals) : Locals :=
  {| isOverflowing := isOverflowing l; lastVisible := Some (item, r);
     probes := probes l |}.

(** [_.forEachRight]: the callback sees the elements from the last index
    down and stops the iteration by returning [false].  [eachRight] runs
    over the reversed collection, where the index of the head is the
    length of the tail. *)
Fixpoint eachRight {A S : Type} (iteratee : A → nat → S → bool * S)
    (reversed : list A) (s : S) : S :=
  match reversed with
  | [] => s
  | x :: rest =>
      let '(continue, s) := iteratee x (length rest) s in
      if continue then eachRight iteratee rest s else s
  end.

Definition forEachRight {A S : Type} (collection : list A)
    (iteratee : A → nat → S → bool * S) (s : S) : S :=
  eachRight iteratee (rev collection) s.

(** Remember the last visible item (if none is remembered yet), then
    [return show($item)]. *)
Definition rememberAndShow (item : Elem) (itemBoundingRect : ClientRect) (i : nat)
    (s : Locals * World) : bool * (Locals * World) :=
  let '(l, w) := s in
  let '(l, w) :=
    match lastVisible l with
    | None => (setLastVisible item itemBoundingRect l,
               setLastVisibleItemIndex (Z.of_nat i) w)
    | Some _ => (l, w)
    end in
  let '(changed, w) := show e item w in
  (changed, (l, w)).

(** The callback given to [_.forEachRight]. *)
Definition scanItem (overflowItem : Elem)
    (overflowItemBoundingRect overflowContainerBoundingRect : ClientRect)
    (item : Elem) (i : nat) (s : Locals * World) : bool * (Locals * World) :=
  let '(l, w) := s in
  if Pos.eqb item overflowItem then (true, s)
  else
    let itemBoundingRect := getBoundingClientRect e item in
    if isItemOverflowing itemBoundingRect overflowContainerBoundingRect then
      (true, (probe (Overflow i) (setOverflowing l), hide e item w))
    else if isOverflowing l && negb (bool_decide (is_Some (lastVisible l))) then
      let wouldCollide :=
        wouldItemCollide item itemBoundingRect overflowItemBoundingRect
          overflowContainerBoundingRect in
      let l := probe (Collision i wouldCollide) l in
      if wouldCollide then (true, (l, hide e item w))
      else rememberAndShow item itemBoundingRect i (l, w)
    else rememberAndShow item itemBoundingRect i (l, w).

(** The absolute positioning offset, measured with the probe element. *)
Definition positioningOffset
    (overflowContainerBoundingRect offsetMeasureBoundingRect : ClientRect) : PositionOffset :=
  {| horizontal :=
       if rtl e
       then r_right offsetMeasureBoundingRect - r_right overflowContainerBoundingRect
       else r_left overflowContainerBoundingRect - r_left offsetMeasureBoundingRect;
     vertical := r_top overflowContainerBoundingRect - r_top offsetMeasureBoundingRect |}.

(** The scan of [hideOverflowItems] on its own: the loop over the
    children of the overflow container. *)
Definition scan (overflowContainer overflowItem : Elem) (w : World) : Locals * World :=
  forEachRight (children e overflowContainer)
    (scanItem overflowItem (getBoundingClientRect e overflowItem)
       (getBoundingClientRect e overflowContainer))
    (initLocals, w).

(** The workaround at the head of a pass: scroll the container back to its
    logical start. *)
Definition scrollToStart (w : World) : World :=
  if rtl e then call (ScrollTo MAX_SAFE_INTEGER 0) w
  else call (ScrollTo 0 0) w.

(** [_.invoke(props, 'onOverflow', lastVisibleItemIndex.current + 1)] *)
Definition invokeOnOverflow (w : World) : World :=
  if onOverflow e
  then call (OnOverflow ((λ n, n + 1) <$> lastVisibleItemIndex w)) w
  else w.

(** One layout pass. *)
Definition hideOverflowItems (w : World) : World :=
  match overflowContainerRef e, overflowItemRef e, offsetMeasureRef e with
  | Some overflowContainer, Some overflowItem, Some offsetMeasure =>
      let w := scrollToStart w in
      let overflowContainerBoundingRect := getBoundingClientRect e overflowContainer in
      let offsetMeasureBoundingRect := getBoundingClientRect e offsetMeasure in
      let absolutePositioningOffset :=
        positioningOffset overflowContainerBoundingRect offsetMeasureBoundingRect in
      let '(l, w) := scan overflowContainer overflowItem w in
      let w :=
        if isOverflowing l || overflowOpen e then
          let w := setElem overflowItem
                     (setPosition "absolute" (getElem w overflowItem)) w in
          let w := setOverflowPosition overflowItem (lastVisible l)
                     overflowContainerBoundingRect absolutePositioningOffset w in
          (show e overflowItem w).2
        else
          let w := setLastVisibleItemIndex (items_length e - 1) w in
          hide e overflowItem w in
      invokeOnOverflow w
  | _, _, _ => w
  end.

(** *** Monotonic layouts

    The scan assumes that items are laid out in their logical order, so
    that the items cut off by the container are the last ones.
    [cropMonotone] checks this for the children of the overflow container:
    every item that follows a cropped item is cropped as well (the overflow
    item itself is not an item). *)
Fixpoint croppedUpwards (real cropped : Elem → bool) (items : list Elem) : bool :=
  match items with
  | [] => true
  | x :: rest =>
      (if real x && cropped x
       then forallb (λ y, implb (real y) (cropped y)) rest
       else true)
      && croppedUpwards real cropped rest
  end.

Definition cropMonotone (overflowContainer overflowItem : Elem) : bool :=
  croppedUpwards
    (λ x, negb (Pos.eqb x overflowItem))
    (λ x, isItemOverflowing (getBoundingClientRect e x)
            (getBoundingClientRect e overflowContainer))
    (children e overflowContainer).

(** The part of a pass that follows the scan, used to reason about the
    pass in two steps (lemma [hideOverflowItems_eq]). *)
Definition finish (c o m : Elem) (s : Locals * World) : World :=
  let '(l, w) := s in
  let cRect := getBoundingClientRect e c in
  let w :=
    if isOverflowing l || overflowOpen e then
      let w := setElem o (setPosition "absolute" (getElem w o)) w in
      let w := setOverflowPosition o (lastVisible l) cRect
                 (positioningOffset cRect (getBoundingClientRect e m)) w in
      (show e o w).2
    else hide e o (setLastVisibleItemIndex (items_length e - 1) w) in
  invokeOnOverflow w.

End Layout.

(** ** The items the render shows and the items it hands to the menu *)

(** [Array.prototype.slice].  A JavaScript number is [None] when it is
    [NaN]; a missing [end] is the outer [None].  [NaN] counts as 0, a
    negative index counts from the end, and both ends are clamped to the
    array. *)
Definition relativeIndex (len : nat) (n : option Z) : nat :=
  let n := default 0 n in
  if n <? 0 then Z.to_nat (Z.max (Z.of_nat len + n) 0)
  else Z.to_nat (Z.min n (Z.of_nat len)).

Definition slice {A : Type} (array : list A) (start : option Z)
    (end_ : option (option Z)) : list A :=
  let len := length array in
  let k := relativeIndex len start in
  let final :=
    match end_ with
    | Some n => relativeIndex len n
    | None => len
    end in
  take (final - k) (drop k array).

(** [lastVisibleItemIndex.current + 1] *)
Definition indexPlusOne (lastVisibleItemIndex : option Z) : option Z :=
  (λ n, n + 1) <$> lastVisibleItemIndex.

Section Render.
Context {A : Type}.
Variable items : list A.
Variable overflowOpen : bool.
(** The optional [getOverflowItems] of the props. *)
Variable getOverflowItems : option (option Z → list A).
(** [lastVisibleItemIndex.current] *)
Variable lastVisibleItemIndex : option Z.

Definition collectOverflowItems : list A :=
  match getOverflowItems with
  | Some f => f (indexPlusOne lastVisibleItemIndex)
  | None => slice items (indexPlusOne lastVisibleItemIndex) None
  end.

Definition getVisibleItems : list A :=
  let end_ :=
    if overflowOpen then indexPlusOne lastVisibleItemIndex
    else Some (Z.of_nat (length items)) in
  slice items (Some 0) (Some end_).

End Render.

#[global] Arguments hide : simpl never.
#[global] Arguments show : simpl never.
#[global] Arguments rememberAndShow : simpl never.
#[global] Arguments scanItem : simpl never.
#[global] Arguments finish : simpl never.
#[global] Arguments forEachRight : simpl never.
#[global] Arguments hideOverflowItems : simpl never.

End Toolbar.

Module Popup.

(** ** The popup behaviour *)

(** JavaScript values that occur as attribute values. *)
Inductive Value :=
  | VUndefined
  | VBool (b : bool)
  | VStr (s : string)
  | VNum (n : Z).

(** [type PopupEvents]. *)
Inductive PopupEvents := click | hover | focus | context.

#[global] Instance PopupEvents_eq_dec : EqDecision PopupEvents.
Proof. solve_decision. Defined.

(** [on?: PopupEvents | PopupEventsArray] *)
Inductive On :=
  | OnUndefined
  | OnSingle (ev : PopupEvents)
  | OnArray (evs : list PopupEvents).

(** [trapFocus?: boolean | object] *)
Inductive TrapFocus :=
  | TrapUndefined
  | TrapBool (b : bool)
  | TrapObject.

(** The element which triggers the popup, [trigger?: { props?: ...; type?:
    string }].  Its [props], when it has them, is a table from property
    names to values, a missing property reading as [None]. *)
Record Trigger := mkTrigger {
  trigger_props : option (gmap string string);
  trigger_type : option string;
}.

(** How a call ends: it returns a value, or it throws a [TypeError] (reading
    a property of [undefined]). *)
Inductive Completion (A : Type) : Type :=
  | Normal (a : A)
  | TypeError.

#[global] Arguments Normal {A} a.
#[global] Arguments TypeError {A}.

(** [type PopupBehaviorProps]; an optional property that is not given is
    [None]. *)
Record PopupBehaviorProps := mkProps {
  trapFocus : TrapFocus;
  on : On;
  disabled : option bool;
  trigger : option Trigger;
  tabbableTrigger : option bool;
  isOpenedByRightClick : option bool;
}.

(** The key codes the behaviour names, from [@fluentui/keyboard-key]. *)
Inductive Key :=
  | Escape | Enter | SpacebarKey
  | ArrowDown | ArrowUp | PageDown | PageUp | Home | KeyEnd.

(** What [keyCombinations] can hold: the list of keys, or the falsy value
    that a failed [&&] chain leaves. *)
Inductive KeyCombinations :=
  | KUndefined
  | KFalse
  | KKeys (keys : list Key).

Record PopupKeyActions := mkPopupKeys {
  closeAndFocusTrigger : KeyCombinations;
  preventScroll : KeyCombinations;
}.

Record TriggerKeyActions := mkTriggerKeys {
  close : KeyCombinations;
  toggle : KeyCombinations;
  open : KeyCombinations;
}.

(** The object [popupBehavior] returns; the two attribute objects are tables
    from attribute names to values. *)
Record Behavior := mkBehavior {
  attributes_trigger : gmap string Value;
  attributes_popup : gmap string Value;
  keyActions_popup : PopupKeyActions;
  keyActions_trigger : TriggerKeyActions;
}.

Definition trapFocusTruthy (t : TrapFocus) : bool :=
  match t with
  | TrapUndefined => false
  | TrapBool b => b
  | TrapObject => true
  end.

Definition optBool (v : option bool) : Value :=
  match v with
  | Some b => VBool b
  | None => VUndefined
  end.

(** [_.isArray(props.on) ? props.on : [props.on]] *)
Definition onAsArray (o : On) : list (option PopupEvents) :=
  match o with
  | OnUndefined => [None]
  | OnSingle ev => [Some ev]
  | OnArray evs => Some <$> evs
  end.

(** [_.includes(onAsArray, ev)] *)
Definition includes (l : list (option PopupEvents)) (ev : PopupEvents) : bool :=
  bool_decide (Some ev ∈ l).

(** [c && keys] for a boolean [c]. *)
Definition andKeys (c : bool) (keys : list Key) : KeyCombinations :=
  if c then KKeys keys else KFalse.

Definition isFocusable (as_ href type : option string) : bool :=
  bool_decide (type = Some "button")
  || bool_decide (type = Some "input")
  || (bool_decide (type = Some "a") && bool_decide (href ≠ None))
  || bool_decide (as_ = Some "button").

(** [props.trigger.props[attributeName]] throws when the trigger has no
    [props]. *)
Definition getAriaAttributeFromProps (attributeName : string)
    (props : PopupBehaviorProps) (defaultValue : Value) : Completion Value :=
  match trigger props with
  | None => Normal VUndefined
  | Some t =>
      match trigger_props t with
      | None => TypeError
      | Some tprops =>
          let fromElement :=
            if isFocusable (tprops !! "as") (tprops !! "href") (trigger_type t)
            then VUndefined else defaultValue in
          Normal
            match tprops !! attributeName with
            | Some v => if String.eqb v "" then fromElement else VStr v
            | None => fromElement
            end
      end
  end.

Section Behavior.
(** [process.env.NODE_ENV] *)
Variable NODE_ENV : string.

Definition tabbableTriggerProps (props : PopupBehaviorProps) :
    Completion (option (gmap string Value)) :=
  if default false (tabbableTrigger props) then
    match getAriaAttributeFromProps "tabIndex" props (VNum 0) with
    | Normal tabIndex =>
        let o : gmap string Value := {[ "tabIndex" := tabIndex ]} in
        let o := <["aria-haspopup" := VStr "true"]> o in
        Normal (Some (if negb (String.eqb NODE_ENV "production")
                      then <["data-aa-class" := VStr "PopupButton"]> o
                      else o))
    | TypeError => TypeError
    end
  else Normal None.

(** A [TypeError] thrown while [tabbableTriggerProps] is computed ends the
    call. *)
Definition popupBehavior (props : PopupBehaviorProps) : Completion Behavior :=
  let onAsArray := onAsArray (on props) in
  match tabbableTriggerProps props with
  | TypeError => TypeError
  | Normal tabbableTriggerProps =>
    Normal
      {| attributes_trigger :=
           <["aria-disabled" := optBool (disabled props)]> (default ∅ tabbableTriggerProps);
         attributes_popup :=
           {[ "role" := if trapFocusTruthy (trapFocus props)
                        then VStr "dialog" else VStr "complementary";
              "aria-modal" := if trapFocusTruthy (trapFocus props)
                              then VBool true else VUndefined ]};
         keyActions_popup :=
           {| closeAndFocusTrigger := KKeys [Escape];
              preventScroll :=
                match isOpenedByRightClick props with
                | None => KUndefined
                | Some false => KFalse
                | Some true =>
                    andKeys (includes onAsArray context)
                      [ArrowDown; ArrowUp; PageDown; PageUp; Home; KeyEnd]
                end |};
         keyActions_trigger :=
           {| close := KKeys [Escape];
              toggle := andKeys (includes onAsArray click) [Enter; SpacebarKey];
              open :=
                if includes onAsArray hover
                then andKeys (negb (includes onAsArray context)) [Enter; SpacebarKey]
                else KFalse |} |}
  end.

End Behavior.

(** The props with another [on]. *)
Definition withOn (o : On) (props : PopupBehaviorProps) : PopupBehaviorProps :=
  {| trapFocus := trapFocus props; on := o; disabled := disabled props;
     trigger := trigger props; tabbableTrigger := tabbableTrigger props;
     isOpenedByRightClick := isOpenedByRightClick props |}.

(** [type PopupEventsArray = RestrictedClickEvents[] | RestrictedHoverEvents[]]:
    an array names click and focus only, or hover, focus and context only. *)
Definition restricted (o : On) : bool :=
  match o with
  | OnArray evs =>
      forallb (λ ev, bool_decide (ev = click ∨ ev = focus)) evs
      || forallb (λ ev, bool_decide (ev = hover ∨ ev = focus ∨ ev = context)) evs
  | _ => true
  end.

Definition isKeys (k : KeyCombinations) : bool :=
  match k with
  | KKeys _ => true
  | _ => false
  end.

End Popup.

Module Scenarios.
Import Toolbar.

(** ** Concrete toolbars *)

(** Modelled from the spec: [getFirstFocusable] of [@fluentui/react-bindings]
    is not under src/.  The spec has it give "the first focusable element
    inside the container", and nothing when there is none.  [order] lists the
    elements inside a container in document order, and an element counts as
    focusable when its focusability marker is ["true"].  The search starts
    from the element it is given (the container's first child); without one
    there is nothing to search. *)
Definition firstFocusable (marker : string) (order : Elem → list Elem)
    (els : gmap positive ElemState) (container : Elem) (start : option Elem) : option Elem :=
  match start with
  | Some _ =>
      List.find (λ x, bool_decide (attributes (els !!! x) !! marker = Some "true"))
        (order container)
  | None => None
  end.

(** The items of the concrete toolbars are buttons: each is a focusable
    area unless it is hidden by its inline style or carries the [disabled]
    attribute.  The other elements (the root, the overflow container, the
    probe) are no focusable areas. *)
Definition control (els : gmap positive ElemState) (el : Elem) : bool :=
  negb (String.eqb (style_visibility (els !!! el)) "hidden")
  && negb (bool_decide (is_Some (attributes (els !!! el) !! "disabled"))).

(** A toolbar whose root element [7] holds the overflow container [1] and the
    offset probe [6]; the children of the container are [kids], among them
    the overflow item [5]. *)
Definition toolbar (rtl overflowOpen : bool) (kids : list Elem)
    (rect : Elem → ClientRect) : Env :=
  {| rtl := rtl;
     items_length := Z.of_nat (length kids) - 1;
     overflowOpen := overflowOpen;
     onOverflow := true;
     overflowContainerRef := Some 1%positive;
     overflowItemRef := Some 5%positive;
     offsetMeasureRef := Some 6%positive;
     containerRef := Some 7%positive;
     children := λ x, if Pos.eqb x 1 then kids else [];
     firstElementChild := λ x, if Pos.eqb x 7 then Some 1%positive else None;
     contains := λ a b,
       Pos.eqb a b || Pos.eqb a 7 || (Pos.eqb a 1 && bool_decide (b ∈ kids));
     focusableArea := λ els el, bool_decide (el ∈ kids) && control els el;
     getBoundingClientRect := rect;
     marginLeft := λ _, Some 0;
     marginRight := λ _, Some 0;
     IS_FOCUSABLE_ATTRIBUTE := "data-is-focusable";
     getFirstFocusable :=
       firstFocusable "data-is-focusable"
         (λ x, if Pos.eqb x 7 then 1%positive :: kids ++ [6%positive] else []) |}.

(** The scenario of the specification: a container spanning [0,300], three
    items at [0,100], [100,220] and [220,340] (elements [2], [3], [4]) and an
    overflow item 30 wide. *)
Definition scenarioRect (x : Elem) : ClientRect :=
  match x with
  | 2%positive => mkRect 0 100 0 100
  | 3%positive => mkRect 100 220 0 120
  | 4%positive => mkRect 220 340 0 120
  | 5%positive => mkRect 340 370 0 30
  | 6%positive => mkRect 0 0 0 0
  | _ => mkRect 0 300 0 300
  end.

Definition scenario : Env := toolbar false false [2; 3; 4; 5]%positive scenarioRect.

(** The same items in a container spanning [0,200]: the second and the
    third item are cropped. *)
Definition narrowRect (x : Elem) : ClientRect :=
  match x with
  | 1%positive => mkRect 0 200 0 200
  | _ => scenarioRect x
  end.

Definition narrow : Env := toolbar false false [2; 3; 4; 5]%positive narrowRect.

(** A toolbar whose first item sticks out of the container on the left while
    the second fits. *)
Definition stickingOutRect (x : Elem) : ClientRect :=
  match x with
  | 2%positive => mkRect (-50) 100 0 150
  | 3%positive => mkRect 100 200 0 100
  | 5%positive => mkRect 200 230 0 30
  | 6%positive => mkRect 0 0 0 0
  | _ => mkRect 0 300 0 300
  end.

Definition stickingOut : Env := toolbar false false [2; 3; 5]%positive stickingOutRect.

(** The scenario mirrored for a right-to-left toolbar: the first item is
    the rightmost one, the third sticks out on the left, and the probe sits
    at the right edge of the container. *)
Definition mirroredRect (x : Elem) : ClientRect :=
  match x with
  | 2%positive => mkRect 200 300 0 100
  | 3%positive => mkRect 80 200 0 120
  | 4%positive => mkRect (-40) 80 0 120
  | 5%positive => mkRect (-70) (-40) 0 30
  | 6%positive => mkRect 300 300 0 0
  | _ => mkRect 0 300 0 300
  end.

Definition mirrored : Env := toolbar true false [2; 3; 4; 5]%positive mirroredRect.

(** The same toolbar filled through [children] instead of [items]: the
    [items] prop is the empty array of the default props. *)
Definition stickingOutChildren : Env :=
  {| rtl := rtl stickingOut; items_length := 0;
     overflowOpen := overflowOpen stickingOut; onOverflow := onOverflow stickingOut;
     overflowContainerRef := overflowContainerRef stickingOut;
     overflowItemRef := overflowItemRef stickingOut;
     offsetMeasureRef := offsetMeasureRef stickingOut;
     containerRef := containerRef stickingOut;
     children := children stickingOut; firstElementChild := firstElementChild stickingOut;
     contains := contains stickingOut; focusableArea := focusableArea stickingOut;
     getBoundingClientRect := getBoundingClientRect stickingOut;
     marginLeft := marginLeft stickingOut; marginRight := marginRight stickingOut;
     IS_FOCUSABLE_ATTRIBUTE := IS_FOCUSABLE_ATTRIBUTE stickingOut;
     getFirstFocusable := getFirstFocusable stickingOut |}.

(** The scenario with the ref to the root element not set, and with the ref
    to the overflow item not set. *)
Definition detached : Env :=
  {| rtl := rtl scenario; items_length := items_length scenario;
     overflowOpen := overflowOpen scenario; onOverflow := onOverflow scenario;
     overflowContainerRef := overflowContainerRef scenario;
     overflowItemRef := overflowItemRef scenario;
     offsetMeasureRef := offsetMeasureRef scenario;
     containerRef := None;
     children := children scenario; firstElementChild := firstElementChild scenario;
     contains := contains scenario; focusableArea := focusableArea scenario;
     getBoundingClientRect := getBoundingClientRect scenario;
     marginLeft := marginLeft scenario; marginRight := marginRight scenario;
     IS_FOCUSABLE_ATTRIBUTE := IS_FOCUSABLE_ATTRIBUTE scenario;
     getFirstFocusable := getFirstFocusable scenario |}.

Definition unmounted : Env :=
  {| rtl := rtl scenario; items_length := items_length scenario;
     overflowOpen := true; onOverflow := onOverflow scenario;
     overflowContainerRef := overflowContainerRef scenario;
     overflowItemRef := None;
     offsetMeasureRef := offsetMeasureRef scenario;
     containerRef := containerRef scenario;
     children := children scenario; firstElementChild := firstElementChild scenario;
     contains := contains scenario; focusableArea := focusableArea scenario;
     getBoundingClientRect := getBoundingClientRect scenario;
     marginLeft := marginLeft scenario; marginRight := marginRight scenario;
     IS_FOCUSABLE_ATTRIBUTE := IS_FOCUSABLE_ATTRIBUTE scenario;
     getFirstFocusable := getFirstFocusable scenario |}.

(** An element with the given visibility and attributes. *)
Definition element (visibility : string) (attrs : list (string * string)) : ElemState :=
  {| style_visibility := visibility; style_position := ""; style_left := "";
     style_right := ""; attributes := list_to_map attrs |}.

Definition world (els : list (positive * ElemState)) (active : option Elem) : World :=
  {| elems := list_to_map els; activeElement := active;
     lastVisibleItemIndex := None; calls := [] |}.

Definition focusable : ElemState := element "" [("data-is-focusable", "true")].

Definition hiddenItem : ElemState :=
  element "hidden" [("data-is-focusable", "false"); ("data-was-focusable", "true")].

(** Freshly rendered: every item visible and focusable, nothing focused. *)
Definition fresh : World :=
  world [(2, focusable); (3, focusable); (4, focusable); (5, focusable)]%positive None.

End Scenarios.

Import Toolbar.

(** * Properties of the visibility toggler *)

Section TogglerFacts.
Variable e : Env.

Lemma getElem_setElem el st w : getElem (setElem el st w) el = st.
Proof. unfold getElem, setElem; simpl. by rewrite lookup_total_insert_eq. Qed.

Lemma getElem_setElem_ne el el' st w :
  el ≠ el' → getElem (setElem el st w) el' = getElem w el'.
Proof. intros. unfold getElem, setElem; simpl. by rewrite lookup_total_insert_ne. Qed.

Lemma setElem_setElem el st st' w : setElem el st (setElem el st' w) = setElem el st w.
Proof. unfold setElem; simpl. by rewrite insert_insert_eq. Qed.

Lemma refocus_elems el w : elems (refocus e el w) = elems w.
Proof. unfold refocus, focus. repeat case_match; done. Qed.

Lemma refocus_index el w : lastVisibleItemIndex (refocus e el w) = lastVisibleItemIndex w.
Proof. unfold refocus, focus. repeat case_match; done. Qed.

Lemma refocus_calls el w : calls (refocus e el w) = calls w.
Proof. unfold refocus, focus. repeat case_match; done. Qed.

Lemma hide_eq el w :
  hide e el w =
  if isHidden w el then w else setElem el (hiddenState e (getElem w el)) (refocus e el w).
Proof.
  unfold hide. destruct (isHidden w el); [done|].
  fold (refocus e el w).
  assert (Hg : getElem (refocus e el w) el = getElem w el)
    by (unfold getElem; by rewrite refocus_elems).
  unfold hiddenState.
  rewrite !getElem_setElem, Hg.
  destruct (getAttribute _ (setVisibility "hidden" (getElem w el))) as [v|] eqn:Hv; simpl.
  - destruct (negb (v =? "")%string).
    + rewrite getElem_setElem. rewrite !setElem_setElem. done.
    + rewrite getElem_setElem, setElem_setElem. done.
  - by rewrite getElem_setElem, setElem_setElem.
Qed.

Lemma show_eq el w :
  show e el w =
  if isHidden w el then (true, setElem el (shownState e (getElem w el)) w) else (false, w).
Proof.
  unfold show. destruct (isHidden w el); [simpl|done].
  unfold shownState. rewrite !getElem_setElem.
  destruct (getAttribute _ (setVisibility "" (getElem w el))) as [v|] eqn:Hv; simpl.
  - destruct (negb (String.eqb v ""));
      rewrite ?getElem_setElem, ?setElem_setElem; done.
  - by rewrite setElem_setElem.
Qed.

Lemma hiddenState_visibility st : style_visibility (hiddenState e st) = "hidden".
Proof. unfold hiddenState. simpl. repeat case_match; done. Qed.

Lemma shownState_visibility st : style_visibility (shownState e st) = "".
Proof. unfold shownState. simpl. repeat case_match; done. Qed.

Lemma hiddenState_styles st :
  style_position (hiddenState e st) = style_position st
  ∧ style_left (hiddenState e st) = style_left st
  ∧ style_right (hiddenState e st) = style_right st.
Proof. unfold hiddenState. simpl. repeat case_match; done. Qed.

Lemma shownState_styles st :
  style_position (shownState e st) = style_position st
  ∧ style_left (shownState e st) = style_left st
  ∧ style_right (shownState e st) = style_right st.
Proof. unfold shownState. simpl. repeat case_match; done. Qed.

Lemma isHidden_setElem el st w :
  isHidden (setElem el st w) el = String.eqb (style_visibility st) "hidden".
Proof. unfold isHidden. by rewrite getElem_setElem. Qed.

Lemma hide_hidden el w : isHidden w el = true → hide e el w = w.
Proof. intros H. by rewrite hide_eq, H. Qed.

Lemma isHidden_hide el w : isHidden (hide e el w) el = true.
Proof.
  rewrite hide_eq. destruct (isHidden w el) eqn:H; [done|].
  by rewrite isHidden_setElem, hiddenState_visibility.
Qed.

Lemma getElem_hide_ne el el' w : el ≠ el' → getElem (hide e el w) el' = getElem w el'.
Proof.
  intros. rewrite hide_eq. destruct (isHidden w el); [done|].
  rewrite getElem_setElem_ne by done. unfold getElem. by rewrite refocus_elems.
Qed.

Lemma isHidden_hide_ne el el' w : el ≠ el' → isHidden (hide e el w) el' = isHidden w el'.
Proof. intros. unfold isHidden. by rewrite getElem_hide_ne. Qed.

Lemma hide_index el w : lastVisibleItemIndex (hide e el w) = lastVisibleItemIndex w.
Proof. rewrite hide_eq. destruct (isHidden w el); [done|]. simpl. apply refocus_index. Qed.

Lemma hide_calls el w : calls (hide e el w) = calls w.
Proof. rewrite hide_eq. destruct (isHidden w el); [done|]. simpl. apply refocus_calls. Qed.

Lemma show_visible el w : isHidden w el = false → show e el w = (false, w).
Proof. intros H. by rewrite show_eq, H. Qed.

Lemma show_changed el w : (show e el w).1 = isHidden w el.
Proof. rewrite show_eq. by destruct (isHidden w el). Qed.

Lemma isHidden_show el w : isHidden (show e el w).2 el = false.
Proof.
  rewrite show_eq. destruct (isHidden w el) eqn:H; [simpl|done].
  by rewrite isHidden_setElem, shownState_visibility.
Qed.

Lemma getElem_show_ne el el' w : el ≠ el' → getElem (show e el w).2 el' = getElem w el'.
Proof.
  intros. rewrite show_eq. destruct (isHidden w el); [simpl|done].
  by rewrite getElem_setElem_ne.
Qed.

Lemma show_index el w : lastVisibleItemIndex (show e el w).2 = lastVisibleItemIndex w.
Proof. rewrite show_eq. by destruct (isHidden w el). Qed.

Lemma show_calls el w : calls (show e el w).2 = calls w.
Proof. rewrite show_eq. by destruct (isHidden w el). Qed.

Lemma show_styles el w :
  style_position (getElem (show e el w).2 el) = style_position (getElem w el)
  ∧ style_left (getElem (show e el w).2 el) = style_left (getElem w el)
  ∧ style_right (getElem (show e el w).2 el) = style_right (getElem w el).
Proof.
  rewrite show_eq. destruct (isHidden w el); [simpl|done].
  rewrite getElem_setElem. apply shownState_styles.
Qed.

End TogglerFacts.

(** * Properties of the scan *)

Lemma eachRight_invariant {A S : Type} (f : A → nat → S → bool * S) (I : S → Prop)
    (rl : list A) (s : S) :
  (∀ x i s, x ∈ rl → I s → I (f x i s).2) → I s → I (eachRight f rl s).
Proof.
  revert s. induction rl as [|x rest IH]; intros s Hstep Hs; [done|].
  simpl. destruct (f x (length rest) s) as [c s'] eqn:Hf.
  assert (I s') as Hs'.
  { specialize (Hstep x (length rest) s). rewrite Hf in Hstep.
    apply Hstep; [left|done]. }
  destruct c; [|done].
  apply IH; [|done]. intros y i t Hy. apply Hstep. by right.
Qed.

Section ScanFacts.
Variable e : Env.
Variables (o : Elem) (oRect cRect : ClientRect).

Local Abbreviation step := (scanItem e o oRect cRect).
Local Abbreviation cropped x := (isItemOverflowing (getBoundingClientRect e x) cRect).
Local Abbreviation collides x :=
  (wouldItemCollide e x (getBoundingClientRect e x) oRect cRect).

(** The five ways through the callback. *)
Lemma scanItem_cases x i l w :
  (x = o ∧ step x i (l, w) = (true, (l, w)))
  ∨ (x ≠ o ∧ cropped x = true
     ∧ step x i (l, w) = (true, (probe (Overflow i) (setOverflowing l), hide e x w)))
  ∨ (x ≠ o ∧ cropped x = false ∧ isOverflowing l = true ∧ lastVisible l = None
     ∧ collides x = true
     ∧ step x i (l, w) = (true, (probe (Collision i true) l, hide e x w)))
  ∨ (x ≠ o ∧ cropped x = false ∧ isOverflowing l = true ∧ lastVisible l = None
     ∧ collides x = false
     ∧ step x i (l, w) =
         rememberAndShow e x (getBoundingClientRect e x) i (probe (Collision i false) l, w))
  ∨ (x ≠ o ∧ cropped x = false
     ∧ (isOverflowing l = false ∨ is_Some (lastVisible l))
     ∧ step x i (l, w) = rememberAndShow e x (getBoundingClientRect e x) i (l, w)).
Proof.
  unfold scanItem.
  destruct (Pos.eqb_spec x o) as [->|Hne]; [by left|right].
  destruct (cropped x) eqn:Hc; [by left|right].
  destruct (isOverflowing l) eqn:Ho.
  - destruct (lastVisible l) as [p|] eqn:Hl.
    + right; right. rewrite bool_decide_true by eauto. eauto 10.
    + rewrite bool_decide_false by (by intros [??]).
      destruct (collides x) eqn:Hd; [left|right; left]; eauto 10.
  - right; right. eauto 10.
Qed.

Lemma rememberAndShow_world x r i l w :
  let s' := (rememberAndShow e x r i (l, w)).2 in
  (∀ y, x ≠ y → getElem s'.2 y = getElem w y)
  ∧ isHidden s'.2 x = false
  ∧ calls s'.2 = calls w
  ∧ lastVisibleItemIndex s'.2 =
      match lastVisible l with
      | Some _ => lastVisibleItemIndex w
      | None => Some (Z.of_nat i)
      end
  ∧ lastVisible s'.1 = Some (default (x, r) (lastVisible l))
  ∧ isOverflowing s'.1 = isOverflowing l
  ∧ probes s'.1 = probes l.
Proof.
  unfold rememberAndShow.
  destruct (lastVisible l) as [p|] eqn:Hl.
  - destruct (show e x w) as [c w'] eqn:Hs. simpl.
    replace w' with (show e x w).2 by (by rewrite Hs).
    rewrite isHidden_show, show_calls, show_index.
    repeat split; try done. intros. by apply getElem_show_ne.
  - destruct (show e x (setLastVisibleItemIndex (Z.of_nat i) w)) as [c w'] eqn:Hs. simpl.
    replace w' with (show e x (setLastVisibleItemIndex (Z.of_nat i) w)).2 by (by rewrite Hs).
    rewrite isHidden_show, show_calls, show_index.
    repeat split; try done. intros. by rewrite getElem_show_ne.
Qed.

Ltac step_cases x i l w :=
  destruct (scanItem_cases x i l w) as
    [(? & ->)|[(? & ? & ->)|[(? & ? & ? & ? & ? & ->)|[(? & ? & ? & ? & ? & ->)|(? & ? & ? & ->)]]]].

(** A step writes to no element but the one it examines, and makes no
    call. *)
Lemma scanItem_other x i l w y :
  x ≠ y → getElem (step x i (l, w)).2.2 y = getElem w y.
Proof.
  intros Hxy. step_cases x i l w; simpl; try done; try (by apply getElem_hide_ne).
  all: by apply rememberAndShow_world.
Qed.

Lemma scanItem_calls x i l w : calls (step x i (l, w)).2.2 = calls w.
Proof.
  step_cases x i l w; simpl; try done; try (by apply hide_calls).
  all: by apply rememberAndShow_world.
Qed.

Lemma scanItem_skip i s : step o i s = (true, s).
Proof. unfold scanItem. destruct s. by rewrite Pos.eqb_refl. Qed.

(** As soon as a last visible item is remembered, the ref holds its
    index. *)
Lemma scanItem_index_some x i l w :
  (is_Some (lastVisible l) → is_Some (lastVisibleItemIndex w)) →
  is_Some (lastVisible (step x i (l, w)).2.1) →
  is_Some (lastVisibleItemIndex (step x i (l, w)).2.2).
Proof.
  intros Hinv. step_cases x i l w; simpl; rewrite ?hide_index; try done.
  all: pose proof (rememberAndShow_world x (getBoundingClientRect e x) i) as Hr.
  all: match goal with |- context [rememberAndShow _ _ _ _ (?l', _)] =>
         destruct (Hr l' w) as (_ & _ & _ & Hi & Hl & _) end.
  all: rewrite Hi; simpl; destruct (lastVisible l); simpl; eauto.
Qed.

Lemma eachRight_calls rl l w : calls (eachRight step rl (l, w)).2 = calls w.
Proof.
  apply (eachRight_invariant step (λ s, calls s.2 = calls w)); [|done].
  intros x i [l' w'] _ Hs. simpl in *. by rewrite scanItem_calls.
Qed.

Lemma eachRight_index_some rl l w :
  (is_Some (lastVisible l) → is_Some (lastVisibleItemIndex w)) →
  is_Some (lastVisible (eachRight step rl (l, w)).1) →
  is_Some (lastVisibleItemIndex (eachRight step rl (l, w)).2).
Proof.
  intros H.
  apply (eachRight_invariant step
           (λ s, is_Some (lastVisible s.1) → is_Some (lastVisibleItemIndex s.2))); [|done].
  intros x i [l' w'] _ Hs. simpl in *. by apply scanItem_index_some.
Qed.

End ScanFacts.

Ltac scan_cases e o oRect cRect x i l w :=
  destruct (scanItem_cases e o oRect cRect x i l w) as
    [(? & ->)|[(? & ? & ->)|[(? & ? & ? & ? & ? & ->)|[(? & ? & ? & ? & ? & ->)|(? & ? & ? & ->)]]]].

Import Scenarios.

(** * The cropping test *)

(** C3.  An item counts as cropped exactly when its right edge lies strictly
    beyond the right edge of the container or its left edge strictly before
    the left edge of the container; an item whose edges touch the edges of
    the container is not cropped.  The test reads the two rectangles and
    nothing else: the scan of a toolbar applies it to the item's rectangle
    whatever the writing direction of the toolbar is. *)
Theorem isItemOverflowing_strict :
  (∀ item container : ClientRect,
     isItemOverflowing item container = true
     ↔ r_right item > r_right container ∨ r_left item < r_left container)
  ∧ (∀ a b t wd t' wd',
       isItemOverflowing (mkRect a b t wd) (mkRect a b t' wd') = false)
  ∧ (∀ (e : Env) (o x : Elem) (oRect cRect : ClientRect) i l w,
       (scanItem e o oRect cRect x i (l, w)
        = (true, (probe (Overflow i) (setOverflowing l), hide e x w)))
       ↔ x ≠ o
         ∧ (r_right (getBoundingClientRect e x) > r_right cRect
            ∨ r_left (getBoundingClientRect e x) < r_left cRect)).
Proof.
  assert (Hiff : ∀ item container : ClientRect,
     isItemOverflowing item container = true
     ↔ r_right item > r_right container ∨ r_left item < r_left container).
  { intros item container. unfold isItemOverflowing.
    rewrite orb_true_iff, !Z.ltb_lt. lia. }
  split; [exact Hiff|]. split.
  - intros. unfold isItemOverflowing; simpl.
    rewrite !Z.ltb_irrefl. done.
  - intros e o x oRect cRect i l w. rewrite <- Hiff. split.
    + intros Heq.
      assert (Hp : probes (scanItem e o oRect cRect x i (l, w)).2.1
                   = probes l ++ [Overflow i]) by (by rewrite Heq).
      clear Heq. revert Hp.
      scan_cases e o oRect cRect x i l w; intros Hp; simpl in Hp.
      * apply (f_equal length) in Hp. rewrite length_app in Hp. simpl in Hp. lia.
      * done.
      * apply app_inv_head in Hp. done.
      * destruct (rememberAndShow_world e x (getBoundingClientRect e x) i
                    (probe (Collision i false) l) w) as (_ & _ & _ & _ & _ & _ & Hq).
        rewrite Hq in Hp. simpl in Hp. apply app_inv_head in Hp. done.
      * destruct (rememberAndShow_world e x (getBoundingClientRect e x) i l w)
          as (_ & _ & _ & _ & _ & _ & Hq).
        rewrite Hq in Hp.
        apply (f_equal length) in Hp. rewrite length_app in Hp. simpl in Hp. lia.
    + intros [Hne Hc].
      scan_cases e o oRect cRect x i l w; try done; congruence.
Qed.

(** * The visibility toggler *)

(** C8, as amended.  For an item that is not hidden, that carries no shadow
    marker and whose focusability marker is absent or not empty, [hide]
    followed by [show] gives back the attribute table it had: the
    focusability marker is the original one (absent if it was absent) and
    there is no shadow marker; [show] reports a change and the item is not
    hidden.  The name of the focusability marker is taken to differ from
    the name of the shadow marker. *)
Theorem hide_show_restores_marker (e : Env) (el : Elem) (w : World) :
  IS_FOCUSABLE_ATTRIBUTE e ≠ WAS_FOCUSABLE_ATTRIBUTE →
  isHidden w el = false →
  getAttribute WAS_FOCUSABLE_ATTRIBUTE (getElem w el) = None →
  getAttribute (IS_FOCUSABLE_ATTRIBUTE e) (getElem w el) ≠ Some "" →
  let r := show e el (hide e el w) in
  r.1 = true
  ∧ isHidden r.2 el = false
  ∧ attributes (getElem r.2 el) = attributes (getElem w el)
  ∧ getAttribute (IS_FOCUSABLE_ATTRIBUTE e) (getElem r.2 el)
    = getAttribute (IS_FOCUSABLE_ATTRIBUTE e) (getElem w el)
  ∧ getAttribute WAS_FOCUSABLE_ATTRIBUTE (getElem r.2 el) = None.
Proof.
  intros Hne Hvis Hwas Hmark r.
  assert (Hattrs : attributes (getElem r.2 el) = attributes (getElem w el)).
  { subst r. rewrite show_eq, isHidden_hide. simpl.
    rewrite getElem_setElem, hide_eq, Hvis, getElem_setElem.
    unfold shownState, hiddenState, getAttribute in *. simpl.
    destruct (attributes (getElem w el) !! IS_FOCUSABLE_ATTRIBUTE e) as [v|] eqn:Hv; simpl.
    - assert (v ≠ "") as Hv' by congruence.
      apply String.eqb_neq in Hv'. rewrite Hv'. simpl.
      rewrite lookup_insert_ne by done. rewrite lookup_insert_eq. simpl.
      rewrite Hv'. simpl.
      apply map_eq. intros k.
      destruct (decide (k = WAS_FOCUSABLE_ATTRIBUTE)) as [->|Hk].
      + by rewrite lookup_delete_eq.
      + rewrite lookup_delete_ne by done.
        destruct (decide (k = IS_FOCUSABLE_ATTRIBUTE e)) as [->|Hk'].
        * by rewrite lookup_insert_eq.
        * rewrite !lookup_insert_ne by done. done.
    - rewrite lookup_insert_ne by done. rewrite Hwas.
      apply map_eq. intros k. simpl.
      destruct (decide (k = IS_FOCUSABLE_ATTRIBUTE e)) as [->|Hk'].
      + by rewrite lookup_delete_eq.
      + rewrite lookup_delete_ne, lookup_insert_ne by done. done. }
  split; [subst r; by rewrite show_changed, isHidden_hide|].
  split; [apply isHidden_show|].
  split; [done|]. unfold getAttribute in *. by rewrite Hattrs.
Qed.

Lemma hide_show_restores_marker_witness :
  (show scenario 2 (hide scenario 2 fresh)).1 = true
  ∧ getAttribute "data-is-focusable" (getElem (show scenario 2 (hide scenario 2 fresh)).2 2)
    = Some "true".
Proof.
  pose proof (hide_show_restores_marker scenario 2 fresh) as H.
  destruct H as (H1 & _ & _ & H4 & _); [done|reflexivity|reflexivity|done|].
  split; [exact H1|]. exact H4.
Defined.

(** C8, as stated, fails on an item that is already hidden ([hide] does
    nothing and [show] brings back the shadow marker, not the marker the
    item had), on an item whose marker is the empty string (the marker is
    gone afterwards) and on a visible item that carries a stale shadow marker
    (the stale value becomes the marker). *)
Lemma hide_show_roundtrip_counterexample :
  let hidden := world [(2%positive, hiddenItem)] None in
  let empty := world [(2%positive, element "" [("data-is-focusable", "")])] None in
  let stale := world [(2%positive, element "" [("data-was-focusable", "true")])] None in
  let after w := getAttribute "data-is-focusable" (getElem (show scenario 2 (hide scenario 2 w)).2 2) in
  (getAttribute "data-is-focusable" (getElem hidden 2) = Some "false"
   ∧ after hidden = Some "true")
  ∧ (getAttribute "data-is-focusable" (getElem empty 2) = Some ""
     ∧ after empty = None)
  ∧ (getAttribute "data-is-focusable" (getElem stale 2) = None
     ∧ after stale = Some "true").
Proof. vm_compute. done. Qed.

(** C9, as amended.  When [hide] is applied to an item that is not hidden
    yet and that holds the focus (or contains the focused element), and
    [getFirstFocusable] finds an element in the container (the container ref
    being set), [focus()] is called on that element before the item is
    hidden: the focus moves to it when it is a focusable area at that
    moment, and stays where it was when it is not.  The item is hidden
    afterwards.  When the focus has moved, it rests on an element that is
    not hidden and lies in no hidden element (by inline style), as long as
    that was so for the element found before the call and the element found
    neither is the item being hidden nor lies inside it. *)
Theorem hide_moves_focus (e : Env) (el : Elem) (w : World) (container f : Elem) :
  isHidden w el = false →
  holdsFocus e el w = true →
  containerRef e = Some container →
  getFirstFocusable e (elems w) container (firstElementChild e container) = Some f →
  activeElement (hide e el w)
  = (if focusableArea e (elems w) f then Some f else activeElement w)
  ∧ isHidden (hide e el w) el = true
  ∧ (focusableArea e (elems w) f = true →
     f ≠ el → contains e el f = false →
     (∀ a, a = f ∨ contains e a f = true → isHidden w a = false) →
     activeElement (hide e el w) = Some f
     ∧ ∀ a, a = f ∨ contains e a f = true → isHidden (hide e el w) a = false).
Proof.
  intros Hvis Hfocus Hc Hf.
  assert (Hactive : activeElement (hide e el w)
                    = (if focusableArea e (elems w) f then Some f else activeElement w)).
  { rewrite hide_eq, Hvis. simpl. unfold refocus. rewrite Hfocus, Hc, Hf.
    unfold focus. by destruct (focusableArea e (elems w) f). }
  split; [done|]. split.
  - apply isHidden_hide.
  - intros Harea Hne Hout Hbefore. split; [by rewrite Hactive, Harea|].
    intros a Ha. rewrite isHidden_hide_ne; [by apply Hbefore|].
    intros <-. destruct Ha as [?|Ha]; congruence.
Qed.

Lemma hide_moves_focus_witness :
  let w := world [(2, focusable); (3, focusable)]%positive (Some 3%positive) in
  activeElement (hide scenario 3 w) = Some 2%positive
  ∧ isHidden (hide scenario 3 w) 3 = true
  ∧ isHidden (hide scenario 3 w) 2 = false
  ∧ isHidden (hide scenario 3 w) 7 = false.
Proof.
  intros w.
  destruct (hide_moves_focus scenario 3 w 7 2 eq_refl eq_refl eq_refl eq_refl)
    as (Hfocus & Hhidden & Hrests).
  split; [exact Hfocus|]. split; [exact Hhidden|].
  assert (Hbefore : ∀ a, a = 2%positive ∨ contains scenario a 2 = true → isHidden w a = false).
  { intros a [->|Ha]; [reflexivity|].
    change (Pos.eqb a 2 || Pos.eqb a 7
            || (Pos.eqb a 1 && bool_decide (2%positive ∈ [2; 3; 4; 5]%positive)) = true)
      in Ha.
    destruct (Pos.eqb_spec a 2) as [E|?]; [by rewrite E|].
    destruct (Pos.eqb_spec a 7) as [E|?]; [by rewrite E|].
    destruct (Pos.eqb_spec a 1) as [E|?]; [by rewrite E|].
    discriminate Ha. }
  destruct Hrests as [_ Hshown]; [reflexivity|discriminate|reflexivity|exact Hbefore|].
  split.
  - apply Hshown. by left.
  - apply Hshown. by right.
Defined.

(** In every other case [hide] leaves the focus where it is. *)
Lemma hide_keeps_focus (e : Env) (el : Elem) (w : World) :
  isHidden w el = true
  ∨ holdsFocus e el w = false
  ∨ containerRef e = None
  ∨ (∃ container, containerRef e = Some container
       ∧ getFirstFocusable e (elems w) container (firstElementChild e container) = None)
  ∨ (∃ container f, containerRef e = Some container
       ∧ getFirstFocusable e (elems w) container (firstElementChild e container) = Some f
       ∧ focusableArea e (elems w) f = false) →
  activeElement (hide e el w) = activeElement w.
Proof.
  rewrite hide_eq. intros [H|H]; [by rewrite H|].
  destruct (isHidden w el); [done|]. simpl. unfold refocus.
  destruct H as [->|[->|[(c & -> & ->)|(c & f & -> & -> & Hf)]]]; try done.
  - by destruct (holdsFocus e el w).
  - by destruct (holdsFocus e el w).
  - unfold focus. rewrite Hf. by destruct (holdsFocus e el w).
Qed.

(** C9, as stated, fails: the focus stays on the item that is hidden when
    that item is itself the first focusable element of the container, when
    the container has no focusable element at all, when the container ref
    is not set, and when the element found is no focusable area (here a
    disabled button), so that [focus()] does nothing. *)
Lemma hide_focus_counterexample :
  let first := world [(2, focusable); (3, focusable)]%positive (Some 2%positive) in
  let alone := world [(2%positive, element "" [])] (Some 2%positive) in
  let refused :=
    world [(2, element "" [("data-is-focusable", "true"); ("disabled", "")]);
           (3, focusable)]%positive (Some 3%positive) in
  (holdsFocus scenario 2 first = true
   ∧ activeElement (hide scenario 2 first) = Some 2%positive
   ∧ isHidden (hide scenario 2 first) 2 = true)
  ∧ (holdsFocus scenario 2 alone = true
     ∧ activeElement (hide scenario 2 alone) = Some 2%positive
     ∧ isHidden (hide scenario 2 alone) 2 = true)
  ∧ (containerRef detached = None
     ∧ holdsFocus detached 3 (world [(2, focusable); (3, focusable)]%positive (Some 3%positive))
       = true
     ∧ activeElement
         (hide detached 3 (world [(2, focusable); (3, focusable)]%positive (Some 3%positive)))
       = Some 3%positive
     ∧ isHidden
         (hide detached 3 (world [(2, focusable); (3, focusable)]%positive (Some 3%positive)))
         3 = true)
  ∧ (holdsFocus scenario 3 refused = true
     ∧ getFirstFocusable scenario (elems refused) 7 (firstElementChild scenario 7)
       = Some 2%positive
     ∧ focusableArea scenario (elems refused) 2 = false
     ∧ activeElement (hide scenario 3 refused) = Some 3%positive
     ∧ isHidden (hide scenario 3 refused) 3 = true).
Proof. vm_compute. done. Qed.

(** * The layout pass *)

(** C7.  With any of the three element refs unset a pass returns at once:
    the world it returns is the world it was given, so no element changed,
    the container was not scrolled, the overflow item was not positioned and
    [onOverflow] was not called. *)
Theorem hideOverflowItems_unset_ref (e : Env) (w : World) :
  overflowContainerRef e = None ∨ overflowItemRef e = None ∨ offsetMeasureRef e = None →
  hideOverflowItems e w = w.
Proof.
  unfold hideOverflowItems. intros [ -> | [ -> | -> ] ]; [done| |].
  - by destruct (overflowContainerRef e).
  - by destruct (overflowContainerRef e), (overflowItemRef e).
Qed.

Lemma hideOverflowItems_unset_ref_witness :
  hideOverflowItems unmounted fresh = fresh.
Proof.
  apply (hideOverflowItems_unset_ref unmounted fresh).
  right; left. reflexivity.
Defined.

Section PassFacts.
Variable e : Env.

Lemma setOverflowPosition_calls o lv cRect off w :
  calls (setOverflowPosition e o lv cRect off w) = calls w.
Proof. unfold setOverflowPosition. by repeat case_match. Qed.

Lemma setOverflowPosition_index o lv cRect off w :
  lastVisibleItemIndex (setOverflowPosition e o lv cRect off w)
  = match lv with Some _ => lastVisibleItemIndex w | None => Some (-1) end.
Proof. unfold setOverflowPosition. by repeat case_match. Qed.

Lemma setOverflowPosition_other o lv cRect off w x :
  o ≠ x → getElem (setOverflowPosition e o lv cRect off w) x = getElem w x.
Proof.
  intros. unfold setOverflowPosition.
  repeat case_match; by rewrite getElem_setElem_ne.
Qed.

Lemma invokeOnOverflow_elems w : elems (invokeOnOverflow e w) = elems w.
Proof. unfold invokeOnOverflow. by case_match. Qed.

Lemma invokeOnOverflow_getElem w x : getElem (invokeOnOverflow e w) x = getElem w x.
Proof. unfold getElem. by rewrite invokeOnOverflow_elems. Qed.

Lemma invokeOnOverflow_isHidden w x : isHidden (invokeOnOverflow e w) x = isHidden w x.
Proof. unfold isHidden. by rewrite invokeOnOverflow_getElem. Qed.

Lemma invokeOnOverflow_index w :
  lastVisibleItemIndex (invokeOnOverflow e w) = lastVisibleItemIndex w.
Proof. unfold invokeOnOverflow. by case_match. Qed.

Lemma invokeOnOverflow_activeElement w :
  activeElement (invokeOnOverflow e w) = activeElement w.
Proof. unfold invokeOnOverflow. by case_match. Qed.

Lemma scrollToStart_elems w : elems (scrollToStart e w) = elems w.
Proof. unfold scrollToStart. by case_match. Qed.

Lemma scrollToStart_getElem w x : getElem (scrollToStart e w) x = getElem w x.
Proof. unfold getElem. by rewrite scrollToStart_elems. Qed.

Lemma scrollToStart_isHidden w x : isHidden (scrollToStart e w) x = isHidden w x.
Proof. unfold isHidden. by rewrite scrollToStart_getElem. Qed.

Lemma scrollToStart_calls w :
  calls (scrollToStart e w)
  = calls w ++ [ScrollTo (if rtl e then MAX_SAFE_INTEGER else 0) 0].
Proof. unfold scrollToStart. by case_match. Qed.

Lemma hideOverflowItems_eq c o m w :
  overflowContainerRef e = Some c → overflowItemRef e = Some o →
  offsetMeasureRef e = Some m →
  hideOverflowItems e w = finish e c o m (scan e c o (scrollToStart e w)).
Proof.
  intros Hc Ho Hm. unfold hideOverflowItems, finish. rewrite Hc, Ho, Hm.
  by destruct (scan e c o (scrollToStart e w)).
Qed.

Lemma finish_other c o m l w x :
  o ≠ x → getElem (finish e c o m (l, w)) x = getElem w x.
Proof.
  intros Hne. unfold finish. rewrite invokeOnOverflow_getElem.
  destruct (isOverflowing l || overflowOpen e).
  - rewrite getElem_show_ne, setOverflowPosition_other, getElem_setElem_ne; done.
  - by rewrite getElem_hide_ne.
Qed.

Lemma finish_index c o m l w :
  lastVisibleItemIndex (finish e c o m (l, w))
  = if isOverflowing l || overflowOpen e
    then match lastVisible l with
         | Some _ => lastVisibleItemIndex w
         | None => Some (-1)
         end
    else Some (items_length e - 1).
Proof.
  unfold finish. rewrite invokeOnOverflow_index.
  destruct (isOverflowing l || overflowOpen e).
  - by rewrite show_index, setOverflowPosition_index.
  - by rewrite hide_index.
Qed.

Lemma finish_overflowItem_hidden c o m l w :
  isHidden (finish e c o m (l, w)) o = negb (isOverflowing l || overflowOpen e).
Proof.
  unfold finish. rewrite invokeOnOverflow_isHidden.
  destruct (isOverflowing l || overflowOpen e); simpl.
  - apply isHidden_show.
  - apply isHidden_hide.
Qed.

Lemma finish_calls c o m l w :
  calls (finish e c o m (l, w))
  = calls w ++
    (if onOverflow e
     then [OnOverflow ((λ n, n + 1) <$> lastVisibleItemIndex (finish e c o m (l, w)))]
     else []).
Proof.
  rewrite finish_index. unfold finish, invokeOnOverflow.
  destruct (isOverflowing l || overflowOpen e).
  - destruct (onOverflow e); simpl.
    + by rewrite show_index, setOverflowPosition_index, show_calls, setOverflowPosition_calls.
    + by rewrite show_calls, setOverflowPosition_calls, app_nil_r.
  - destruct (onOverflow e); simpl.
    + by rewrite hide_index, hide_calls.
    + by rewrite hide_calls, app_nil_r.
Qed.

End PassFacts.

(** C6.  A pass that runs (the three refs are set) ends with the ref
    [lastVisibleItemIndex] holding an index, and when the props carry an
    [onOverflow] callback the pass calls it exactly once, last, with that
    index plus one, whether or not anything overflowed.  When the scan found
    no overflow and the overflow menu is not forced open, the overflow item
    is hidden and the index is the number of items minus one. *)
Theorem hideOverflowItems_reports (e : Env) (w : World) (c o m : Elem) :
  overflowContainerRef e = Some c →
  overflowItemRef e = Some o →
  offsetMeasureRef e = Some m →
  let w' := hideOverflowItems e w in
  let l := (scan e c o (scrollToStart e w)).1 in
  (∃ n, lastVisibleItemIndex w' = Some n
        ∧ (onOverflow e = true →
           calls w' = calls w ++ [ScrollTo (if rtl e then MAX_SAFE_INTEGER else 0) 0;
                                  OnOverflow (Some (n + 1))]))
  ∧ (isOverflowing l = false → overflowOpen e = false →
     isHidden w' o = true ∧ lastVisibleItemIndex w' = Some (items_length e - 1)).
Proof.
  intros Hc Ho Hm w' l. subst w' l.
  rewrite (hideOverflowItems_eq e c o m) by done.
  destruct (scan e c o (scrollToStart e w)) as [l w1] eqn:Hscan. simpl.
  assert (Hcalls : calls w1 = calls (scrollToStart e w)).
  { replace w1 with (scan e c o (scrollToStart e w)).2 by (by rewrite Hscan).
    apply eachRight_calls. }
  assert (Hidx : is_Some (lastVisible l) → is_Some (lastVisibleItemIndex w1)).
  { replace w1 with (scan e c o (scrollToStart e w)).2 by (by rewrite Hscan).
    replace l with (scan e c o (scrollToStart e w)).1 by (by rewrite Hscan).
    apply eachRight_index_some. by intros [??]. }
  split.
  - assert (is_Some (lastVisibleItemIndex (finish e c o m (l, w1)))) as [n Hn].
    { rewrite finish_index. repeat case_match; eauto. }
    exists n. split; [done|]. intros Hcb.
    rewrite finish_calls, Hcb, Hn, Hcalls, scrollToStart_calls. simpl.
    by rewrite <- app_assoc.
  - intros Hov Hopen. rewrite finish_overflowItem_hidden, finish_index, Hov, Hopen. done.
Qed.

Lemma hideOverflowItems_reports_witness :
  ∃ n, lastVisibleItemIndex (hideOverflowItems scenario fresh) = Some n
       ∧ calls (hideOverflowItems scenario fresh) = [ScrollTo 0 0; OnOverflow (Some (n + 1))].
Proof.
  destruct (hideOverflowItems_reports scenario fresh 1 5 6) as [(n & Hn & Hcalls) _];
    [reflexivity..|].
  exists n. split; [exact Hn|]. apply Hcalls. reflexivity.
Defined.

Section ScanEquations.
Variable e : Env.
Variables (o : Elem) (oRect cRect : ClientRect).

Local Abbreviation step := (scanItem e o oRect cRect).
Local Abbreviation cropped x := (isItemOverflowing (getBoundingClientRect e x) cRect).
Local Abbreviation collides x :=
  (wouldItemCollide e x (getBoundingClientRect e x) oRect cRect).

Lemma scanItem_cropped x i l w :
  x ≠ o → cropped x = true →
  step x i (l, w) = (true, (probe (Overflow i) (setOverflowing l), hide e x w)).
Proof. intros. scan_cases e o oRect cRect x i l w; done || congruence. Qed.

Lemma scanItem_collides x i l w :
  x ≠ o → cropped x = false → isOverflowing l = true → lastVisible l = None →
  collides x = true →
  step x i (l, w) = (true, (probe (Collision i true) l, hide e x w)).
Proof.
  intros ???? Hl. scan_cases e o oRect cRect x i l w; try (done || congruence).
  destruct H5 as [?|[??]]; congruence.
Qed.

Lemma scanItem_lands x i l w :
  x ≠ o → cropped x = false → isOverflowing l = true → lastVisible l = None →
  collides x = false →
  step x i (l, w)
  = rememberAndShow e x (getBoundingClientRect e x) i (probe (Collision i false) l, w).
Proof.
  intros ???? Hl. scan_cases e o oRect cRect x i l w; try (done || congruence).
  destruct H5 as [?|[??]]; congruence.
Qed.

Lemma scanItem_fits x i l w :
  x ≠ o → cropped x = false →
  isOverflowing l = false ∨ is_Some (lastVisible l) →
  step x i (l, w) = rememberAndShow e x (getBoundingClientRect e x) i (l, w).
Proof.
  intros ?? [Hl|[? Hl]]; scan_cases e o oRect cRect x i l w; done || congruence.
Qed.

Lemma rememberAndShow_first x r i l w :
  lastVisible l = None →
  rememberAndShow e x r i (l, w)
  = let w' := setLastVisibleItemIndex (Z.of_nat i) w in
    (isHidden w x,
     (setLastVisible x r l,
      if isHidden w x then setElem x (shownState e (getElem w x)) w' else w')).
Proof.
  intros Hl. unfold rememberAndShow. rewrite Hl, show_eq.
  change (isHidden (setLastVisibleItemIndex (Z.of_nat i) w) x) with (isHidden w x).
  by destruct (isHidden w x).
Qed.

End ScanEquations.

(** C1.  In the scenario of the specification (left to right, no margins,
    the probe at the origin of the container, container [0,300], items at
    [0,100], [100,220], [220,340], overflow item 30 wide), a pass that
    finds the first two items visible hides the third item, leaves the first
    two visible, records 1 as the index of the last visible item and puts
    the overflow item, shown and absolutely positioned, at [left: 220px];
    [onOverflow] is told that two items are visible. *)
Theorem scenario_pass (w : World) :
  isHidden w 2 = false →
  isHidden w 3 = false →
  let w' := hideOverflowItems scenario w in
  isHidden w' 4 = true
  ∧ isHidden w' 2 = false
  ∧ isHidden w' 3 = false
  ∧ lastVisibleItemIndex w' = Some 1
  ∧ style_left (getElem w' 5) = "220px"
  ∧ style_position (getElem w' 5) = "absolute"
  ∧ isHidden w' 5 = false
  ∧ calls w' = calls w ++ [ScrollTo 0 0; OnOverflow (Some 2)].
Proof.
  intros H2 H3 w'. subst w'.
  rewrite (hideOverflowItems_eq scenario 1 5 6) by reflexivity.
  set (w1 := scrollToStart scenario w).
  assert (Hscan : scan scenario 1 5 w1
    = ({| isOverflowing := true;
          lastVisible := Some (3%positive, scenarioRect 3);
          probes := [Overflow 2; Collision 1 false] |},
       setLastVisibleItemIndex 1 (hide scenario 4 w1))).
  { unfold scan, forEachRight.
    change (rev (children scenario 1)) with [5; 4; 3; 2]%positive.
    cbn [eachRight length].
    rewrite scanItem_skip.
    rewrite scanItem_cropped by done.
    rewrite scanItem_lands by done.
    rewrite rememberAndShow_first by done.
    rewrite isHidden_hide_ne by done.
    unfold w1. rewrite scrollToStart_isHidden, H3. done. }
  rewrite Hscan. clear Hscan.
  set (l := {| isOverflowing := true; lastVisible := _; probes := _ |}).
  set (w2 := setLastVisibleItemIndex 1 (hide scenario 4 w1)).
  assert (Hw2 : ∀ x, x ≠ 4%positive → getElem w2 x = getElem w x).
  { intros x Hx. unfold w2, w1.
    change (getElem (setLastVisibleItemIndex 1 ?v) x) with (getElem v x).
    rewrite getElem_hide_ne by done. apply scrollToStart_getElem. }
  assert (Hfin : ∀ x, x ≠ 4%positive → x ≠ 5%positive →
             isHidden (finish scenario 1 5 6 (l, w2)) x = isHidden w x).
  { intros x H4 H5. unfold isHidden. by rewrite finish_other, Hw2. }
  split; [|split; [|split; [|split; [|split; [|split; [|split]]]]]].
  - unfold isHidden. rewrite finish_other by done.
    change (getElem w2 4) with (getElem (hide scenario 4 w1) 4).
    apply isHidden_hide.
  - by rewrite Hfin.
  - by rewrite Hfin.
  - by rewrite finish_index.
  - unfold finish. rewrite invokeOnOverflow_getElem. simpl.
    rewrite (proj1 (proj2 (show_styles _ _ _))), getElem_setElem. done.
  - unfold finish. rewrite invokeOnOverflow_getElem. simpl.
    rewrite (proj1 (show_styles _ _ _)), !getElem_setElem. done.
  - by rewrite finish_overflowItem_hidden.
  - rewrite finish_calls, finish_index. simpl.
    unfold w2, w1. simpl. rewrite hide_calls, scrollToStart_calls. simpl.
    by rewrite <- app_assoc.
Qed.

Lemma scenario_pass_witness :
  isHidden (hideOverflowItems scenario fresh) 4 = true
  ∧ lastVisibleItemIndex (hideOverflowItems scenario fresh) = Some 1
  ∧ style_left (getElem (hideOverflowItems scenario fresh) 5) = "220px".
Proof.
  destruct (scenario_pass fresh) as (H4 & _ & _ & Hi & Hl & _); [reflexivity..|].
  split; [exact H4|]. split; [exact Hi|exact Hl].
Defined.

(** The mirrored scenario gives the mirrored result: the third item is
    hidden, the index is 1 and the overflow item sits at [right: 220px]. *)
Example mirrored_pass :
  let w' := hideOverflowItems mirrored fresh in
  isHidden w' 4 = true ∧ isHidden w' 3 = false ∧ isHidden w' 2 = false
  ∧ lastVisibleItemIndex w' = Some 1
  ∧ style_right (getElem w' 5) = "220px"
  ∧ calls w' = [ScrollTo MAX_SAFE_INTEGER 0; OnOverflow (Some 2)].
Proof. vm_compute. done. Qed.

(** With no item at all the index is -1 and the overflow item is shown only
    when the overflow menu is forced open. *)
Example empty_pass :
  let closed := hideOverflowItems (toolbar false false [5%positive] scenarioRect) fresh in
  let opened := hideOverflowItems (toolbar false true [5%positive] scenarioRect) fresh in
  lastVisibleItemIndex closed = Some (-1) ∧ isHidden closed 5 = true
  ∧ lastVisibleItemIndex opened = Some (-1) ∧ isHidden opened 5 = false
  ∧ style_left (getElem opened 5) = "0px".
Proof. vm_compute. done. Qed.

(** * The popup behaviour *)

(** A trigger that is a [div] and opens on click: it is made tabbable, and
    Enter and Space toggle the popup. *)
Example popupBehavior_div_trigger :
  let props :=
    {| Popup.trapFocus := Popup.TrapObject; Popup.on := Popup.OnSingle Popup.click;
       Popup.disabled := None;
       Popup.trigger :=
         Some {| Popup.trigger_props := Some ∅; Popup.trigger_type := Some "div" |};
       Popup.tabbableTrigger := Some true; Popup.isOpenedByRightClick := Some true |} in
  ∃ b, Popup.popupBehavior "production" props = Popup.Normal b
  ∧ Popup.attributes_trigger b !! "tabIndex" = Some (Popup.VNum 0)
  ∧ Popup.attributes_trigger b !! "aria-haspopup" = Some (Popup.VStr "true")
  ∧ Popup.attributes_trigger b !! "data-aa-class" = None
  ∧ Popup.attributes_trigger b !! "aria-disabled" = Some Popup.VUndefined
  ∧ Popup.toggle (Popup.keyActions_trigger b) = Popup.KKeys [Popup.Enter; Popup.SpacebarKey]
  ∧ Popup.open (Popup.keyActions_trigger b) = Popup.KFalse
  ∧ Popup.preventScroll (Popup.keyActions_popup b) = Popup.KFalse.
Proof. eexists. split; [reflexivity|]. vm_compute. done. Qed.

Section PopupCompletion.
Import Popup.
Variable NODE_ENV : string.

(** Computing the tabbable trigger props throws exactly when a tabbable
    trigger is asked for and the trigger has no [props]. *)
Lemma tabbableTriggerProps_throws props :
  tabbableTriggerProps NODE_ENV props = TypeError
  ↔ tabbableTrigger props = Some true
    ∧ ∃ t, trigger props = Some t ∧ trigger_props t = None.
Proof.
  unfold tabbableTriggerProps, getAriaAttributeFromProps.
  destruct (tabbableTrigger props) as [[|]|]; simpl.
  - destruct (trigger props) as [t|]; simpl.
    + destruct (trigger_props t) as [tprops|] eqn:Ht; simpl.
      * split; [done|]. intros (_ & t' & [= <-] & ?). congruence.
      * split; [|done]. intros _. split; [done|]. by exists t.
    + split; [done|]. by intros (_ & t' & ? & _).
  - split; [done|]. by intros [? _].
  - split; [done|]. by intros [? _].
Qed.

Lemma popupBehavior_throws props :
  popupBehavior NODE_ENV props = TypeError
  ↔ tabbableTrigger props = Some true
    ∧ ∃ t, trigger props = Some t ∧ trigger_props t = None.
Proof.
  rewrite <- tabbableTriggerProps_throws. unfold popupBehavior.
  by destruct (tabbableTriggerProps NODE_ENV props).
Qed.

End PopupCompletion.

(** C10.  [popupBehavior] does not return for every props record: it
    throws a [TypeError] exactly when a tabbable trigger is asked for and
    the trigger given has no [props].  Whenever it returns (in every build
    mode), the popup attributes have role ['dialog'] and [aria-modal] true
    when [trapFocus] is requested (it is [true] or an object), and role
    ['complementary'] with [aria-modal] undefined otherwise; and when
    [disabled] is true the trigger attributes contain [aria-disabled]
    true. *)
Theorem popupBehavior_attributes (NODE_ENV : string) (props : Popup.PopupBehaviorProps) :
  (Popup.popupBehavior NODE_ENV props = Popup.TypeError
   ↔ Popup.tabbableTrigger props = Some true
     ∧ ∃ t, Popup.trigger props = Some t ∧ Popup.trigger_props t = None)
  ∧ (∀ b, Popup.popupBehavior NODE_ENV props = Popup.Normal b →
     (Popup.trapFocusTruthy (Popup.trapFocus props) = true →
      Popup.attributes_popup b !! "role" = Some (Popup.VStr "dialog")
      ∧ Popup.attributes_popup b !! "aria-modal" = Some (Popup.VBool true))
     ∧ (Popup.trapFocusTruthy (Popup.trapFocus props) = false →
        Popup.attributes_popup b !! "role" = Some (Popup.VStr "complementary")
        ∧ Popup.attributes_popup b !! "aria-modal" = Some Popup.VUndefined)
     ∧ (Popup.disabled props = Some true →
        Popup.attributes_trigger b !! "aria-disabled" = Some (Popup.VBool true))).
Proof.
  split; [apply popupBehavior_throws|].
  intros b Hb. unfold Popup.popupBehavior in Hb.
  destruct (Popup.tabbableTriggerProps NODE_ENV props) as [ttp|]; [|done].
  injection Hb as <-. simpl.
  split; [|split].
  - intros ->. split; [by rewrite lookup_insert_eq|].
    rewrite lookup_insert_ne by done. by rewrite lookup_singleton_eq.
  - intros ->. split; [by rewrite lookup_insert_eq|].
    rewrite lookup_insert_ne by done. by rewrite lookup_singleton_eq.
  - intros ->. by rewrite lookup_insert_eq.
Qed.

(** The call on [{ tabbableTrigger: true, disabled: true, trigger: { type:
    'div' } }] throws. *)
Lemma popupBehavior_attributes_witness :
  let props :=
    {| Popup.trapFocus := Popup.TrapBool false; Popup.on := Popup.OnSingle Popup.click;
       Popup.disabled := Some true;
       Popup.trigger :=
         Some {| Popup.trigger_props := None; Popup.trigger_type := Some "div" |};
       Popup.tabbableTrigger := Some true; Popup.isOpenedByRightClick := None |} in
  Popup.popupBehavior "production" props = Popup.TypeError.
Proof.
  intros props.
  destruct (popupBehavior_attributes "production" props) as [[_ Hthrows] _].
  apply Hthrows. split; [reflexivity|].
  exists {| Popup.trigger_props := None; Popup.trigger_type := Some "div" |}.
  split; reflexivity.
Defined.

(** Without [tabbableTrigger] the same props give what the scenario of the
    specification says. *)
Example popupBehavior_disabled :
  let props :=
    {| Popup.trapFocus := Popup.TrapBool false; Popup.on := Popup.OnSingle Popup.click;
       Popup.disabled := Some true;
       Popup.trigger :=
         Some {| Popup.trigger_props := None; Popup.trigger_type := Some "div" |};
       Popup.tabbableTrigger := None; Popup.isOpenedByRightClick := None |} in
  ∃ b, Popup.popupBehavior "production" props = Popup.Normal b
  ∧ Popup.attributes_popup b !! "role" = Some (Popup.VStr "complementary")
  ∧ Popup.attributes_popup b !! "aria-modal" = Some Popup.VUndefined
  ∧ Popup.attributes_trigger b !! "aria-disabled" = Some (Popup.VBool true).
Proof. eexists. split; [reflexivity|]. vm_compute. done. Qed.

(** * Running the scan again *)

Lemma forEachRight_snoc {A S : Type} (f : A → nat → S → bool * S) (cs : list A) (x : A) (s : S) :
  forEachRight (cs ++ [x]) f s
  = let '(continue, s1) := f x (length cs) s in
    if continue then forEachRight cs f s1 else s1.
Proof.
  unfold forEachRight. rewrite rev_app_distr. simpl. by rewrite length_rev.
Qed.

Lemma forEachRight_nil {A S : Type} (f : A → nat → S → bool * S) (s : S) :
  forEachRight [] f s = s.
Proof. done. Qed.

Lemma forEachRight_invariant {A S : Type} (f : A → nat → S → bool * S) (I : S → Prop)
    (cs : list A) (s : S) :
  (∀ x i s, x ∈ cs → I s → I (f x i s).2) → I s → I (forEachRight cs f s).
Proof.
  intros Hstep Hs. unfold forEachRight. apply eachRight_invariant; [|done].
  intros x i t Hx. apply Hstep. apply list_elem_of_In, in_rev, list_elem_of_In in Hx.
  done.
Qed.

Lemma croppedUpwards_snoc real cropped cs x :
  croppedUpwards real cropped (cs ++ [x]) = true →
  croppedUpwards real cropped cs = true
  ∧ (real x = true → cropped x = false →
     ∀ y, y ∈ cs → real y = true → cropped y = false).
Proof.
  induction cs as [|z cs IH]; simpl.
  - intros _. split; [done|]. intros _ _ y Hy. by apply elem_of_nil in Hy.
  - intros [Hz Hrest]%andb_true_iff. destruct (IH Hrest) as [IH1 IH2].
    split.
    + rewrite IH1, andb_true_r.
      destruct (real z && cropped z); [|done].
      rewrite forallb_app in Hz. by apply andb_true_iff in Hz as [-> _].
    + intros Hx Hcx y [Hyz|Hy]%elem_of_cons Hry; [subst y|by apply IH2].
      destruct (cropped z) eqn:Hcy; [|done].
      rewrite Hry in Hz. simpl in Hz.
      rewrite forallb_app in Hz. apply andb_true_iff in Hz as [_ Hz].
      simpl in Hz. rewrite Hx, Hcx in Hz. done.
Qed.

Section Rerun.
Variable e : Env.
Variables (o : Elem) (oRect cRect : ClientRect).

Local Abbreviation step := (scanItem e o oRect cRect).
Local Abbreviation cropped x := (isItemOverflowing (getBoundingClientRect e x) cRect).

Lemma forEachRight_other cs l w y :
  y ∉ cs → getElem (forEachRight cs step (l, w)).2 y = getElem w y.
Proof.
  intros Hy.
  apply (forEachRight_invariant step (λ s, getElem s.2 y = getElem w y)); [|done].
  intros x i [l' w'] Hx Hs. simpl in *. rewrite <- Hs.
  apply scanItem_other. intros ->. done.
Qed.

(** Once a last visible item is remembered, the rest of the scan keeps it,
    keeps the ref, and raises the overflow flag only at a cropped item. *)
Lemma scanItem_after_last x i l w :
  is_Some (lastVisible l) →
  let s := (step x i (l, w)).2 in
  lastVisible s.1 = lastVisible l
  ∧ lastVisibleItemIndex s.2 = lastVisibleItemIndex w
  ∧ (x ≠ o → cropped x = false → isOverflowing s.1 = isOverflowing l).
Proof.
  intros [p Hp]. scan_cases e o oRect cRect x i l w; simpl; try congruence.
  - done.
  - rewrite hide_index. split; [done|]. split; [done|]. congruence.
  - destruct (rememberAndShow_world e x (getBoundingClientRect e x) i l w)
      as (_ & _ & _ & Hi & Hl & Ho & _).
    rewrite Hi, Hl, Ho, Hp. done.
Qed.

Lemma forEachRight_after_last cs l w :
  is_Some (lastVisible l) →
  let s := forEachRight cs step (l, w) in
  lastVisible s.1 = lastVisible l
  ∧ lastVisibleItemIndex s.2 = lastVisibleItemIndex w
  ∧ ((∀ y, y ∈ cs → y ≠ o → cropped y = false) → isOverflowing s.1 = isOverflowing l).
Proof.
  intros Hl.
  apply (forEachRight_invariant step
    (λ s, lastVisible s.1 = lastVisible l
          ∧ lastVisibleItemIndex s.2 = lastVisibleItemIndex w
          ∧ ((∀ y, y ∈ cs → y ≠ o → cropped y = false)
             → isOverflowing s.1 = isOverflowing l))); [|done].
  intros x i [l' w'] Hx (H1 & H2 & H3). simpl in *.
  destruct (scanItem_after_last x i l' w') as (G1 & G2 & G3); [by rewrite H1|].
  split; [congruence|]. split; [congruence|].
  intros Hfree. rewrite <- (H3 Hfree).
  destruct (decide (x = o)) as [->|Hne]; [by rewrite scanItem_skip|].
  apply G3; [done|]. by apply Hfree.
Qed.

Lemma remember_then_continue cs x r i l w :
  lastVisible l = None →
  (let '(continue, s1) := rememberAndShow e x r i (l, w) in
   if continue then forEachRight cs step s1 else s1)
  = if isHidden w x
    then forEachRight cs step
           (setLastVisible x r l,
            setElem x (shownState e (getElem w x)) (setLastVisibleItemIndex (Z.of_nat i) w))
    else (setLastVisible x r l, setLastVisibleItemIndex (Z.of_nat i) w).
Proof.
  intros Hl. rewrite rememberAndShow_first by done. simpl.
  by destruct (isHidden w x).
Qed.

(** The state a scan leaves its items in is a state on which the scan
    changes nothing: scanning a world that agrees with the result on the
    items writes no element, moves no focus and finds the same last visible
    item; it finds the same overflow flag too when no item before a fitting
    item is cropped. *)
Lemma scan_again cs :
  NoDup cs →
  ∀ l w v,
    lastVisible l = None →
    (∀ y, y ∈ cs → y ≠ o → getElem v y = getElem (forEachRight cs step (l, w)).2 y) →
    elems (forEachRight cs step (l, v)).2 = elems v
    ∧ activeElement (forEachRight cs step (l, v)).2 = activeElement v
    ∧ lastVisible (forEachRight cs step (l, v)).1
      = lastVisible (forEachRight cs step (l, w)).1
    ∧ lastVisibleItemIndex (forEachRight cs step (l, v)).2
      = match lastVisible (forEachRight cs step (l, w)).1 with
        | Some _ => lastVisibleItemIndex (forEachRight cs step (l, w)).2
        | None => lastVisibleItemIndex v
        end
    ∧ (croppedUpwards (λ x, negb (Pos.eqb x o)) (λ x, cropped x) cs = true →
       isOverflowing (forEachRight cs step (l, v)).1
       = isOverflowing (forEachRight cs step (l, w)).1).
Proof.
  induction cs as [|x cs IH] using rev_ind; intros Hnd l w v Hl Hagree.
  { rewrite !forEachRight_nil. simpl. by rewrite Hl. }
  apply NoDup_app in Hnd as (Hnd & Hx & _).
  assert (x ∉ cs) as Hxcs by (intros ?; eapply Hx; [done|by left]).
  assert (x ∈ cs ++ [x]) as Hxin by (apply elem_of_app; right; by left).
  assert (Hsub : ∀ y, y ∈ cs → y ∈ cs ++ [x]) by (intros; apply elem_of_app; by left).
  assert (Hmono : ∀ P : Prop,
            (croppedUpwards (λ x, negb (Pos.eqb x o)) (λ x, cropped x) cs = true → P) →
            croppedUpwards (λ x, negb (Pos.eqb x o)) (λ x, cropped x) (cs ++ [x]) = true → P).
  { intros P HP H. apply HP. by apply croppedUpwards_snoc in H as [? _]. }
  assert (Hfree : croppedUpwards (λ x, negb (Pos.eqb x o)) (λ x, cropped x) (cs ++ [x]) = true →
            x ≠ o → cropped x = false → ∀ y, y ∈ cs → y ≠ o → cropped y = false).
  { intros Hm Hxo Hc y Hy Hyo. apply croppedUpwards_snoc in Hm as [_ Hm].
    apply Hm; try done; by apply negb_true_iff, Pos.eqb_neq. }
  rewrite forEachRight_snoc in Hagree. rewrite !forEachRight_snoc.
  destruct (scanItem_cases e o oRect cRect x (length cs) l w)
    as [(Hxo & E1)|[(Hxo & Hc & E1)|[(Hxo & Hc & Hov & _ & Hcol & E1)|
        [(Hxo & Hc & Hov & _ & Hcol & E1)|(Hxo & Hc & Hcond & E1)]]]];
    rewrite E1 in Hagree |- *; clear E1.
  - (* the overflow item *)
    subst x. rewrite scanItem_skip.
    destruct (IH Hnd l w v Hl) as (G1 & G2 & G3 & G4 & G5); [by auto|].
    repeat split; try done. by apply Hmono.
  - (* cropped *)
    rewrite scanItem_cropped by done.
    assert (hide e x v = v) as Hv.
    { apply hide_hidden. unfold isHidden. rewrite (Hagree x) by done.
      rewrite forEachRight_other by done. apply isHidden_hide. }
    rewrite Hv.
    destruct (IH Hnd (probe (Overflow (length cs)) (setOverflowing l)) (hide e x w) v Hl)
      as (G1 & G2 & G3 & G4 & G5); [by auto|].
    repeat split; try done. by apply Hmono.
  - (* colliding *)
    rewrite scanItem_collides by done.
    assert (hide e x v = v) as Hv.
    { apply hide_hidden. unfold isHidden. rewrite (Hagree x) by done.
      rewrite forEachRight_other by done. apply isHidden_hide. }
    rewrite Hv.
    destruct (IH Hnd (probe (Collision (length cs) true) l) (hide e x w) v Hl)
      as (G1 & G2 & G3 & G4 & G5); [by auto|].
    repeat split; try done. by apply Hmono.
  - (* the last visible item, found after an overflow *)
    rewrite scanItem_lands by done.
    rewrite remember_then_continue in Hagree |- * by done.
    rewrite remember_then_continue by done.
    set (l' := setLastVisible x (getBoundingClientRect e x) (probe (Collision (length cs) false) l)) in *.
    set (wi := setLastVisibleItemIndex (Z.of_nat (length cs)) w) in *.
    set (s1 := if isHidden w x
               then forEachRight cs step (l', setElem x (shownState e (getElem w x)) wi)
               else (l', wi)) in *.
    assert (isHidden s1.2 x = false) as Hs1.
    { subst s1. destruct (isHidden w x) eqn:Hw; [|done].
      unfold isHidden. rewrite forEachRight_other by done.
      by rewrite getElem_setElem, shownState_visibility. }
    assert (isHidden v x = false) as Hvx.
    { unfold isHidden. rewrite (Hagree x) by done. exact Hs1. }
    rewrite Hvx. simpl.
    assert (lastVisible s1.1 = Some (x, getBoundingClientRect e x)
            ∧ lastVisibleItemIndex s1.2 = Some (Z.of_nat (length cs))
            ∧ ((∀ y, y ∈ cs → y ≠ o → cropped y = false)
               → isOverflowing s1.1 = isOverflowing l)) as (F1 & F2 & F3).
    { subst s1. destruct (isHidden w x); [|done].
      apply (forEachRight_after_last cs l'). done. }
    rewrite F1, F2. repeat split; try done.
    intros Hm. symmetry. apply F3. by apply Hfree.
  - (* the last visible item, found without an overflow *)
    rewrite scanItem_fits by done.
    rewrite remember_then_continue in Hagree |- * by done.
    rewrite remember_then_continue by done.
    set (l' := setLastVisible x (getBoundingClientRect e x) l) in *.
    set (wi := setLastVisibleItemIndex (Z.of_nat (length cs)) w) in *.
    set (s1 := if isHidden w x
               then forEachRight cs step (l', setElem x (shownState e (getElem w x)) wi)
               else (l', wi)) in *.
    assert (isHidden s1.2 x = false) as Hs1.
    { subst s1. destruct (isHidden w x) eqn:Hw; [|done].
      unfold isHidden. rewrite forEachRight_other by done.
      by rewrite getElem_setElem, shownState_visibility. }
    assert (isHidden v x = false) as Hvx.
    { unfold isHidden. rewrite (Hagree x) by done. exact Hs1. }
    rewrite Hvx. simpl.
    assert (lastVisible s1.1 = Some (x, getBoundingClientRect e x)
            ∧ lastVisibleItemIndex s1.2 = Some (Z.of_nat (length cs))
            ∧ ((∀ y, y ∈ cs → y ≠ o → cropped y = false)
               → isOverflowing s1.1 = isOverflowing l)) as (F1 & F2 & F3).
    { subst s1. destruct (isHidden w x); [|done].
      apply (forEachRight_after_last cs l'). done. }
    rewrite F1, F2. repeat split; try done.
    intros Hm. symmetry. apply F3. by apply Hfree.
Qed.

End Rerun.

Section PassAgain.
Variable e : Env.

Lemma getElem_elems w w' x : elems w = elems w' → getElem w x = getElem w' x.
Proof. unfold getElem. by intros ->. Qed.

Lemma isHidden_elems w w' x : elems w = elems w' → isHidden w x = isHidden w' x.
Proof. unfold isHidden. intros H. by rewrite (getElem_elems w w'). Qed.

Lemma getElem_setLastVisibleItemIndex i w x :
  getElem (setLastVisibleItemIndex i w) x = getElem w x.
Proof. done. Qed.

Lemma setPosition_id v st : style_position st = v → setPosition v st = st.
Proof. destruct st. simpl. by intros ->. Qed.

Lemma setLeft_id v st : style_left st = v → setLeft v st = st.
Proof. destruct st. simpl. by intros ->. Qed.

Lemma setRight_id v st : style_right st = v → setRight v st = st.
Proof. destruct st. simpl. by intros ->. Qed.

Lemma elems_setElem_id x w : is_Some (elems w !! x) → elems (setElem x (getElem w x) w) = elems w.
Proof.
  intros [st Hst]. simpl. apply insert_id. unfold getElem.
  by rewrite (lookup_total_correct _ _ _ Hst).
Qed.

Lemma show_present x w : is_Some (elems w !! x) → is_Some (elems (show e x w).2 !! x).
Proof.
  intros H. rewrite show_eq. destruct (isHidden w x); [simpl|done].
  rewrite lookup_insert_eq. eauto.
Qed.

Lemma setOverflowPosition_eq o lv cRect off w :
  setOverflowPosition e o lv cRect off w
  = let w := match lv with Some _ => w | None => setLastVisibleItemIndex (-1) w end in
    setElem o ((if rtl e then setRight else setLeft) (landing e lv cRect off) (getElem w o)) w.
Proof.
  unfold setOverflowPosition, landing.
  destruct lv as [[x r]|]; destruct (rtl e); done.
Qed.

(** The overflow item after it has been positioned and shown. *)
Lemma positioned o lv cRect off w :
  let w' := (show e o (setOverflowPosition e o lv cRect off
                         (setElem o (setPosition "absolute" (getElem w o)) w))).2 in
  is_Some (elems w' !! o)
  ∧ style_position (getElem w' o) = "absolute"
  ∧ (if rtl e then style_right (getElem w' o) else style_left (getElem w' o))
    = landing e lv cRect off
  ∧ isHidden w' o = false.
Proof.
  intros w'. subst w'.
  split; [|split; [|split]].
  - apply show_present. rewrite setOverflowPosition_eq. simpl.
    rewrite lookup_insert_eq. eauto.
  - rewrite (proj1 (show_styles _ _ _)), setOverflowPosition_eq. cbv zeta.
    rewrite getElem_setElem.
    destruct lv, (rtl e); simpl;
      rewrite ?getElem_setLastVisibleItemIndex, getElem_setElem; done.
  - destruct (rtl e) eqn:Hr.
    + rewrite (proj2 (proj2 (show_styles _ _ _))), setOverflowPosition_eq, Hr. cbv zeta.
      by rewrite getElem_setElem.
    + rewrite (proj1 (proj2 (show_styles _ _ _))), setOverflowPosition_eq, Hr. cbv zeta.
      by rewrite getElem_setElem.
  - apply isHidden_show.
Qed.

(** Positioning and showing the overflow item where it already is, and
    hiding it when it is hidden already, write nothing. *)
Lemma finish_again c o m l1 w1 l2 v2 :
  isOverflowing l2 || overflowOpen e = isOverflowing l1 || overflowOpen e →
  lastVisible l2 = lastVisible l1 →
  elems v2 = elems (finish e c o m (l1, w1)) →
  elems (finish e c o m (l2, v2)) = elems v2
  ∧ activeElement (finish e c o m (l2, v2)) = activeElement v2.
Proof.
  intros Hb Hlv Hel. revert Hel. unfold finish.
  rewrite !invokeOnOverflow_elems, invokeOnOverflow_activeElement, Hb, Hlv.
  destruct (isOverflowing l1 || overflowOpen e).
  - set (cRect := getBoundingClientRect e c).
    set (off := positioningOffset e cRect (getBoundingClientRect e m)).
    destruct (positioned o (lastVisible l1) cRect off w1) as (Hin & Hpos & Hland & Hvis).
    revert Hin Hpos Hland Hvis.
    set (wA := (show e o (setOverflowPosition e o (lastVisible l1) cRect off
                            (setElem o (setPosition "absolute" (getElem w1 o)) w1))).2).
    intros Hin Hpos Hland Hvis Hel.
    assert (Hst : getElem v2 o = getElem wA o) by (by apply getElem_elems).
    assert (Hin2 : is_Some (elems v2 !! o)) by (by rewrite Hel).
    set (vP := setElem o (setPosition "absolute" (getElem v2 o)) v2).
    assert (HvP : elems vP = elems v2).
    { unfold vP. rewrite setPosition_id by (by rewrite Hst). by apply elems_setElem_id. }
    set (vQ := setOverflowPosition e o (lastVisible l1) cRect off vP).
    assert (HvQ : elems vQ = elems v2 ∧ activeElement vQ = activeElement v2).
    { unfold vQ. rewrite setOverflowPosition_eq. cbv zeta.
      set (vP' := match lastVisible l1 with
                  | Some _ => vP
                  | None => setLastVisibleItemIndex (-1) vP
                  end).
      assert (elems vP' = elems v2 ∧ activeElement vP' = activeElement v2) as [HvP' HaP'].
      { unfold vP'. destruct (lastVisible l1); (split; [exact HvP|reflexivity]). }
      assert (getElem vP' o = getElem wA o) as Hst'
        by (rewrite <- Hst; by apply getElem_elems).
      split; [|done].
      destruct (rtl e).
      - rewrite setRight_id by (by rewrite Hst').
        rewrite elems_setElem_id; [done|]. by rewrite HvP'.
      - rewrite setLeft_id by (by rewrite Hst').
        rewrite elems_setElem_id; [done|]. by rewrite HvP'. }
    destruct HvQ as [HvQ HaQ].
    rewrite show_visible.
    + done.
    + rewrite (isHidden_elems vQ wA) by congruence. done.
  - intros Hel.
    rewrite hide_hidden; [done|].
    change (isHidden (setLastVisibleItemIndex (items_length e - 1) v2) o)
      with (isHidden v2 o).
    rewrite (isHidden_elems _ _ _ Hel). apply isHidden_hide.
Qed.

End PassAgain.

(** C5, as amended.  With the geometry and the props unchanged, a second
    pass right after a first one leaves every item other than the overflow
    item exactly as the first pass left it (visibility and markers).  It
    leaves all the rest as well (the visibility and the inline position of
    the overflow item, the last-visible index, the focus) provided no item
    that follows a cropped item fits (the monotonic layout the scan
    assumes) or the overflow menu is forced open.  The children of the
    overflow container are taken to be distinct elements. *)
Theorem hideOverflowItems_twice (e : Env) (w : World) (c o m : Elem) :
  overflowContainerRef e = Some c →
  overflowItemRef e = Some o →
  offsetMeasureRef e = Some m →
  NoDup (children e c) →
  let once := hideOverflowItems e w in
  let twice := hideOverflowItems e once in
  (∀ y, y ≠ o → getElem twice y = getElem once y)
  ∧ (cropMonotone e c o = true ∨ overflowOpen e = true →
     elems twice = elems once
     ∧ lastVisibleItemIndex twice = lastVisibleItemIndex once
     ∧ activeElement twice = activeElement once).
Proof.
  intros Hc Ho Hm Hnd once twice. subst twice once.
  rewrite !(hideOverflowItems_eq e c o m) by done.
  set (w0 := scrollToStart e w).
  destruct (scan e c o w0) as [l1 w1] eqn:Hs1.
  set (once := finish e c o m (l1, w1)).
  set (v := scrollToStart e once).
  destruct (scan_again e o (getBoundingClientRect e o) (getBoundingClientRect e c)
              (children e c) Hnd initLocals w0 v eq_refl) as (G1 & G2 & G3 & G4 & G5).
  { intros y Hy Hyo. fold (scan e c o w0). rewrite Hs1. simpl.
    unfold v. rewrite scrollToStart_getElem. unfold once. by rewrite finish_other. }
  fold (scan e c o v) in G1, G2, G3, G4, G5. fold (scan e c o w0) in G3, G4, G5.
  rewrite Hs1 in G3, G4, G5. simpl in G3, G4, G5.
  destruct (scan e c o v) as [l2 v2] eqn:Hs2. simpl in G1, G2, G3, G4, G5.
  assert (Hv : elems v2 = elems once).
  { rewrite G1. unfold v. apply scrollToStart_elems. }
  split.
  - intros y Hy. rewrite finish_other by done. by apply getElem_elems.
  - intros Hgeom.
    assert (Hb : isOverflowing l2 || overflowOpen e = isOverflowing l1 || overflowOpen e).
    { destruct Hgeom as [Hmono| ->]; [|by rewrite !orb_true_r].
      by rewrite (G5 Hmono). }
    destruct (finish_again e c o m l1 w1 l2 v2 Hb G3 Hv) as [F1 F2].
    split; [congruence|]. split.
    + unfold once. rewrite !finish_index, Hb, G3, G4.
      by destruct (lastVisible l1).
    + rewrite F2, G2. unfold v, scrollToStart. by destruct (rtl e).
Qed.

Lemma hideOverflowItems_twice_witness :
  elems (hideOverflowItems scenario (hideOverflowItems scenario fresh))
  = elems (hideOverflowItems scenario fresh).
Proof.
  assert (Hnd : NoDup (children scenario 1)).
  { apply (bool_decide_eq_true_1 (NoDup [2; 3; 4; 5]%positive)). reflexivity. }
  destruct (hideOverflowItems_twice scenario fresh 1 5 6 eq_refl eq_refl eq_refl Hnd)
    as [_ H].
  destruct H as [H _]; [left; reflexivity|]. exact H.
Defined.

(** C5, as stated, fails where a cropped item precedes the last visible
    item and the scan reaches it: in [stickingOut], with the second item
    hidden by an earlier pass, the first pass shows the second item, goes on
    to the first item, finds it cropped and so shows the overflow item; the
    second pass stops at the second item, sees no overflow and hides the
    overflow item.  When the toolbar is filled through [children], the
    index the two passes record differs as well. *)
Lemma hideOverflowItems_twice_counterexample :
  let w := world [(2, focusable); (3, hiddenItem); (5, focusable)]%positive None in
  let once := hideOverflowItems stickingOut w in
  let twice := hideOverflowItems stickingOut once in
  let once' := hideOverflowItems stickingOutChildren w in
  let twice' := hideOverflowItems stickingOutChildren once' in
  (isHidden once 2 = true ∧ isHidden once 3 = false ∧ isHidden once 5 = false
   ∧ style_left (getElem once 5) = "200px")
  ∧ (isHidden twice 2 = true ∧ isHidden twice 3 = false ∧ isHidden twice 5 = true)
  ∧ (lastVisibleItemIndex once' = Some 1 ∧ lastVisibleItemIndex twice' = Some (-1)).
Proof. vm_compute. done. Qed.

(** * What the scan tests, and on which items *)

Lemma forEachRight_indexed {A S : Type} (f : A → nat → S → bool * S) (I : nat → S → Prop)
    (cs : list A) (s : S) :
  (∀ x n s, cs !! n = Some x → I (Datatypes.S n) s → I n (f x n s).2) →
  I (length cs) s →
  ∃ n, (n ≤ length cs)%nat ∧ I n (forEachRight cs f s).
Proof.
  revert s. induction cs as [|x cs IH] using rev_ind; intros s Hstep Hs.
  { exists 0%nat. by rewrite forEachRight_nil. }
  rewrite forEachRight_snoc.
  destruct (f x (length cs) s) as [c s1] eqn:Hf.
  assert (I (length cs) s1) as Hs1.
  { change s1 with (c, s1).2. rewrite <- Hf. apply Hstep.
    - by rewrite lookup_app_r, Nat.sub_diag.
    - by rewrite length_app, Nat.add_1_r in Hs. }
  rewrite length_app, Nat.add_1_r.
  destruct c.
  - destruct (IH s1) as (n & Hn & HI); [|done|exists n; split; [lia|done]].
    intros y n t Hy. apply Hstep. by apply lookup_app_l_Some.
  - exists (length cs). split; [lia|done].
Qed.

Section Window.
Variable e : Env.
Variables (o : Elem) (oRect cRect : ClientRect).

Local Abbreviation step := (scanItem e o oRect cRect).
Local Abbreviation cropped x := (isItemOverflowing (getBoundingClientRect e x) cRect).

(** What one step does to the locals, to the ref and to the item it
    examines, case by case. *)
Lemma scanItem_summary x i l w :
  let s := (step x i (l, w)).2 in
  (x = o ∧ s = (l, w))
  ∨ (x ≠ o ∧ cropped x = true
     ∧ isOverflowing s.1 = true ∧ lastVisible s.1 = lastVisible l
     ∧ probes s.1 = probes l ++ [Overflow i]
     ∧ lastVisibleItemIndex s.2 = lastVisibleItemIndex w
     ∧ isHidden s.2 x = true)
  ∨ (x ≠ o ∧ cropped x = false ∧ isOverflowing l = true ∧ lastVisible l = None
     ∧ isOverflowing s.1 = true ∧ lastVisible s.1 = None
     ∧ probes s.1 = probes l ++ [Collision i true]
     ∧ lastVisibleItemIndex s.2 = lastVisibleItemIndex w
     ∧ isHidden s.2 x = true)
  ∨ (x ≠ o ∧ cropped x = false ∧ isOverflowing l = true ∧ lastVisible l = None
     ∧ isOverflowing s.1 = true ∧ is_Some (lastVisible s.1)
     ∧ probes s.1 = probes l ++ [Collision i false]
     ∧ lastVisibleItemIndex s.2 = Some (Z.of_nat i)
     ∧ isHidden s.2 x = false)
  ∨ (x ≠ o ∧ cropped x = false ∧ isOverflowing l = false ∧ lastVisible l = None
     ∧ isOverflowing s.1 = false ∧ is_Some (lastVisible s.1)
     ∧ probes s.1 = probes l
     ∧ lastVisibleItemIndex s.2 = Some (Z.of_nat i)
     ∧ isHidden s.2 x = false)
  ∨ (x ≠ o ∧ cropped x = false ∧ is_Some (lastVisible l)
     ∧ isOverflowing s.1 = isOverflowing l ∧ lastVisible s.1 = lastVisible l
     ∧ probes s.1 = probes l
     ∧ lastVisibleItemIndex s.2 = lastVisibleItemIndex w
     ∧ isHidden s.2 x = false).
Proof.
  pose proof (rememberAndShow_world e x (getBoundingClientRect e x) i) as Hr.
  scan_cases e o oRect cRect x i l w; cbv zeta.
  - by left.
  - right; left. simpl. rewrite hide_index, isHidden_hide. done.
  - right; right; left. simpl. rewrite hide_index, isHidden_hide. done.
  - right; right; right; left.
    destruct (Hr (probe (Collision i false) l) w) as (_ & Hh & _ & Hi & Hl & Ho & Hp).
    simpl in Hi, Hl, Ho, Hp. rewrite H2 in Hi, Hl.
    rewrite Hh, Hi, Hl, Ho, Hp. eauto 12.
  - destruct (Hr l w) as (_ & Hh & _ & Hi & Hl & Ho & Hp).
    destruct (lastVisible l) as [p|] eqn:Hlv.
    + do 5 right. rewrite Hh, Hi, Hl, Ho, Hp. simpl. eauto 12.
    + do 4 right; left. destruct H1 as [H1|[? H1]]; [|done].
      rewrite Hh, Hi, Hl, Ho, Hp, H1. eauto 12.
Qed.

End Window.

Ltac split6 := split; [|split; [|split; [|split; [|split]]]].

Section Probes.
Variable e : Env.
Variables (o : Elem) (oRect cRect : ClientRect).

Local Abbreviation step := (scanItem e o oRect cRect).

(** The probes a scan leaves, against the index the ref holds. *)
Lemma scan_probes cs w :
  let s := forEachRight cs step (initLocals, w) in
  ∃ n,
    (∀ i b, Collision i b ∈ probes s.1 →
       (n ≤ i)%nat ∧ ∃ j, (i < j)%nat ∧ Overflow j ∈ probes s.1)
    ∧ (∀ i b L, Collision i b ∈ probes s.1 → is_Some (lastVisible s.1) →
         lastVisibleItemIndex s.2 = Some (Z.of_nat L) →
         (L ≤ i)%nat ∧ (b = true → (L < i)%nat) ∧ (b = false → L = i))
    ∧ (isOverflowing s.1 = true → ∃ j, (n ≤ j)%nat ∧ Overflow j ∈ probes s.1)
    ∧ (is_Some (lastVisible s.1) →
       ∃ L, (n ≤ L)%nat ∧ lastVisibleItemIndex s.2 = Some (Z.of_nat L))
    ∧ (lastVisible s.1 = None → ∀ i, Collision i false ∉ probes s.1)
    ∧ (∀ i, Overflow i ∈ probes s.1 → (n ≤ i)%nat).
Proof.
  intros s. subst s.
  destruct (forEachRight_indexed step
    (λ n s,
       (∀ i b, Collision i b ∈ probes s.1 →
          (n ≤ i)%nat ∧ ∃ j, (i < j)%nat ∧ Overflow j ∈ probes s.1)
       ∧ (∀ i b L, Collision i b ∈ probes s.1 → is_Some (lastVisible s.1) →
            lastVisibleItemIndex s.2 = Some (Z.of_nat L) →
            (L ≤ i)%nat ∧ (b = true → (L < i)%nat) ∧ (b = false → L = i))
       ∧ (isOverflowing s.1 = true → ∃ j, (n ≤ j)%nat ∧ Overflow j ∈ probes s.1)
       ∧ (is_Some (lastVisible s.1) →
          ∃ L, (n ≤ L)%nat ∧ lastVisibleItemIndex s.2 = Some (Z.of_nat L))
       ∧ (lastVisible s.1 = None → ∀ i, Collision i false ∉ probes s.1)
       ∧ (∀ i, Overflow i ∈ probes s.1 → (n ≤ i)%nat))
    cs (initLocals, w)) as (n & _ & Hn); [| |by exists n].
  - intros x n [l v] _ (P1 & P2 & P3 & P4 & P5 & P9). simpl in P1, P2, P3, P4, P5, P9.
    assert (W1 : ∀ i b, Collision i b ∈ probes l →
              (n ≤ i)%nat ∧ ∃ j, (i < j)%nat ∧ Overflow j ∈ probes l).
    { intros i b Hin. destruct (P1 i b Hin) as (? & j & ? & ?). split; [lia|eauto]. }
    assert (W3 : isOverflowing l = true → ∃ j, (n ≤ j)%nat ∧ Overflow j ∈ probes l).
    { intros HO. destruct (P3 HO) as (j & ? & ?). exists j. split; [lia|done]. }
    assert (W4 : is_Some (lastVisible l) →
              ∃ L, (n ≤ L)%nat ∧ lastVisibleItemIndex v = Some (Z.of_nat L)).
    { intros HS. destruct (P4 HS) as (L & ? & ?). exists L. split; [lia|done]. }
    assert (W9 : ∀ i, Overflow i ∈ probes l → (n ≤ i)%nat).
    { intros i Hin. apply P9 in Hin. lia. }
    assert (Hleft : ∀ (p q : Probe) ps, p ∈ ps → p ∈ ps ++ [q]).
    { intros. apply elem_of_app. by left. }
    assert (Hright : ∀ (q : Probe) ps, q ∈ ps ++ [q]).
    { intros. apply elem_of_app. right. by apply list_elem_of_singleton. }
    destruct (scanItem_summary e o oRect cRect x n l v) as
      [(_ & ->)
      |[(_ & _ & Ho & Hl & Hp & Hi & _)
       |[(_ & _ & Hov & Hnone & Ho & Hl & Hp & Hi & _)
        |[(_ & _ & Hov & Hnone & Ho & Hl & Hp & Hi & _)
         |[(_ & _ & Hov & Hnone & Ho & Hl & Hp & Hi & _)
          |(_ & _ & Hsome & Ho & Hl & Hp & Hi & _)]]]]].
    + simpl. split6; done.
    + rewrite Ho, Hl, Hp, Hi. split6.
      * intros i b [Hin|Hin]%elem_of_app.
        -- destruct (W1 i b Hin) as (? & j & ? & ?). eauto.
        -- by apply list_elem_of_singleton in Hin.
      * intros i b L [Hin|Hin]%elem_of_app; [by apply P2|].
        by apply list_elem_of_singleton in Hin.
      * eauto.
      * done.
      * intros Hnone i [Hin|Hin]%elem_of_app; [by apply (P5 Hnone i)|].
        by apply list_elem_of_singleton in Hin.
      * intros i [Hin|Hin]%elem_of_app; [by apply W9|].
        apply list_elem_of_singleton in Hin. injection Hin as ->. lia.
    + rewrite Ho, Hl, Hp, Hi. destruct (P3 Hov) as (j0 & Hj0 & Hj0in). split6.
      * intros i b [Hin|Hin]%elem_of_app.
        -- destruct (W1 i b Hin) as (? & j & ? & ?). eauto.
        -- apply list_elem_of_singleton in Hin. injection Hin as -> ->.
           split; [lia|]. exists j0. split; [lia|eauto].
      * by intros i b L _ [??].
      * intros _. exists j0. split; [lia|eauto].
      * by intros [??].
      * intros _ i [Hin|Hin]%elem_of_app; [by apply (P5 Hnone i)|].
        by apply list_elem_of_singleton in Hin.
      * intros i [Hin|Hin]%elem_of_app; [by apply W9|].
        by apply list_elem_of_singleton in Hin.
    + rewrite Ho, Hp, Hi. destruct (P3 Hov) as (j0 & Hj0 & Hj0in). split6.
      * intros i b [Hin|Hin]%elem_of_app.
        -- destruct (W1 i b Hin) as (? & j & ? & ?). eauto.
        -- apply list_elem_of_singleton in Hin. injection Hin as -> ->.
           split; [lia|]. exists j0. split; [lia|eauto].
      * intros i b L [Hin|Hin]%elem_of_app _ [= HL%Nat2Z.inj]; subst L.
        -- destruct (P1 i b Hin) as (? & _). destruct b.
           ++ split; [lia|]. split; [intros; lia|done].
           ++ by destruct (P5 Hnone i).
        -- apply list_elem_of_singleton in Hin. injection Hin as -> ->. done.
      * intros _. exists j0. split; [lia|eauto].
      * intros _. exists n. split; [lia|done].
      * intros Hnone'. rewrite Hnone' in Hl. by destruct Hl.
      * intros i [Hin|Hin]%elem_of_app; [by apply W9|].
        by apply list_elem_of_singleton in Hin.
    + rewrite Ho, Hp, Hi. split6.
      * done.
      * intros i b L Hin _ [= HL%Nat2Z.inj]; subst L.
        destruct (P1 i b Hin) as (? & _). destruct b.
        -- split; [lia|]. split; [intros; lia|done].
        -- by destruct (P5 Hnone i).
      * done.
      * intros _. exists n. split; [lia|done].
      * intros Hnone'. rewrite Hnone' in Hl. by destruct Hl.
      * done.
    + rewrite Ho, Hl, Hp, Hi. split6; done.
  - simpl. split6.
    + intros i b Hin. by apply elem_of_nil in Hin.
    + intros i b L Hin. by apply elem_of_nil in Hin.
    + done.
    + by intros [??].
    + intros _ i Hin. by apply elem_of_nil in Hin.
    + intros i Hin. by apply elem_of_nil in Hin.
Qed.

End Probes.

Section Items.
Variable e : Env.
Variables (o : Elem) (oRect cRect : ClientRect).

Local Abbreviation step := (scanItem e o oRect cRect).
Local Abbreviation cropped x := (isItemOverflowing (getBoundingClientRect e x) cRect).

(** The items a scan leaves, from the index [n] at which it stopped: the
    items before [n] are untouched; a reached item that is cropped is
    hidden; a reached item that precedes the last visible item is hidden
    exactly when it is cropped. *)
Lemma scan_items cs w :
  NoDup cs →
  let s := forEachRight cs step (initLocals, w) in
  ∃ n,
    (∀ k y, (k < n)%nat → cs !! k = Some y → getElem s.2 y = getElem w y)
    ∧ (∀ k y L, (n ≤ k)%nat → cs !! k = Some y → y ≠ o →
         is_Some (lastVisible s.1) → lastVisibleItemIndex s.2 = Some (Z.of_nat L) →
         (k < L)%nat → isHidden s.2 y = cropped y)
    ∧ (∀ k y, (n ≤ k)%nat → cs !! k = Some y → y ≠ o → cropped y = true →
         isHidden s.2 y = true)
    ∧ (∀ i, Overflow i ∈ probes s.1 →
         (n ≤ i)%nat ∧ ∃ x, cs !! i = Some x ∧ x ≠ o ∧ cropped x = true).
Proof.
  intros Hnd s. subst s.
  destruct (forEachRight_indexed step
    (λ n s,
       (∀ k y, (k < n)%nat → cs !! k = Some y → getElem s.2 y = getElem w y)
       ∧ (∀ k y L, (n ≤ k)%nat → cs !! k = Some y → y ≠ o →
            is_Some (lastVisible s.1) → lastVisibleItemIndex s.2 = Some (Z.of_nat L) →
            (k < L)%nat → isHidden s.2 y = cropped y)
       ∧ (∀ k y, (n ≤ k)%nat → cs !! k = Some y → y ≠ o → cropped y = true →
            isHidden s.2 y = true)
       ∧ (∀ i, Overflow i ∈ probes s.1 →
            (n ≤ i)%nat ∧ ∃ x, cs !! i = Some x ∧ x ≠ o ∧ cropped x = true))
    cs (initLocals, w)) as (n & _ & Hn); [| |by exists n].
  - intros x n [l v] Hx (Q6 & Q7 & Q8 & Q9). simpl in Q6, Q7, Q8, Q9.
    assert (Hother : ∀ k y, k ≠ n → cs !! k = Some y →
              getElem (step x n (l, v)).2.2 y = getElem v y).
    { intros k y Hk Hy. apply scanItem_other. intros ->.
      apply Hk. by apply (NoDup_lookup cs k n y). }
    assert (Hhid : ∀ k y, k ≠ n → cs !! k = Some y →
              isHidden (step x n (l, v)).2.2 y = isHidden v y).
    { intros k y Hk Hy. unfold isHidden. by rewrite (Hother k y). }
    assert (Hsame : ∀ k y, (n ≤ k)%nat → cs !! k = Some y → k = n ∧ y = x ∨ (n < k)%nat).
    { intros k y Hk Hy. destruct (decide (k = n)) as [->|]; [left|right; lia].
      split; [done|]. congruence. }
    split; [|split; [|split]].
    + intros k y Hk Hy. rewrite (Hother k y) by (done || lia). apply (Q6 k); [lia|done].
    + intros k y L Hk Hy Hyo HS HL HkL.
      destruct (Hsame k y Hk Hy) as [[-> ->]|Hlt].
      * destruct (scanItem_summary e o oRect cRect x n l v) as
          [(? & _)
          |[(_ & Hc & _ & _ & _ & _ & Hh)
           |[(_ & _ & _ & _ & _ & Hl & _)
            |[(_ & _ & _ & _ & _ & _ & _ & Hi & _)
             |[(_ & _ & _ & _ & _ & _ & _ & Hi & _)
              |(_ & Hc & _ & _ & _ & _ & _ & Hh)]]]]].
        -- done.
        -- by rewrite Hh, Hc.
        -- rewrite Hl in HS. by destruct HS.
        -- rewrite Hi in HL. injection HL as HL%Nat2Z.inj. lia.
        -- rewrite Hi in HL. injection HL as HL%Nat2Z.inj. lia.
        -- by rewrite Hh, Hc.
      * rewrite (Hhid k y) by (done || lia).
        destruct (scanItem_summary e o oRect cRect x n l v) as
          [(_ & Heq)
          |[(_ & _ & _ & Hl & _ & Hi & _)
           |[(_ & _ & _ & _ & _ & Hl & _)
            |[(_ & _ & _ & _ & _ & _ & _ & Hi & _)
             |[(_ & _ & _ & _ & _ & _ & _ & Hi & _)
              |(_ & _ & _ & _ & Hl & _ & Hi & _)]]]]].
        -- rewrite Heq in HS, HL. by apply (Q7 k y L).
        -- rewrite Hl in HS. rewrite Hi in HL. by apply (Q7 k y L).
        -- rewrite Hl in HS. by destruct HS.
        -- rewrite Hi in HL. injection HL as HL%Nat2Z.inj. lia.
        -- rewrite Hi in HL. injection HL as HL%Nat2Z.inj. lia.
        -- rewrite Hl in HS. rewrite Hi in HL. by apply (Q7 k y L).
    + intros k y Hk Hy Hyo Hcy.
      destruct (Hsame k y Hk Hy) as [[-> ->]|Hlt].
      * destruct (scanItem_summary e o oRect cRect x n l v) as
          [(? & _)
          |[(_ & _ & _ & _ & _ & _ & Hh)
           |[(_ & Hc & _)
            |[(_ & Hc & _)
             |[(_ & Hc & _)
              |(_ & Hc & _)]]]]]; done || congruence.
      * rewrite (Hhid k y) by (done || lia). by apply (Q8 k).
    + intros i.
      assert (∀ ps (p : Probe), p ≠ Overflow i → Overflow i ∈ ps ++ [p] → Overflow i ∈ ps)
        as Hdrop.
      { intros ps p Hp [Hin|Hin]%elem_of_app; [done|].
        apply list_elem_of_singleton in Hin. congruence. }
      assert (Hold : Overflow i ∈ probes l →
                (n ≤ i)%nat ∧ ∃ x, cs !! i = Some x ∧ x ≠ o ∧ cropped x = true).
      { intros Hin. apply Q9 in Hin as [? ?]. split; [lia|done]. }
      destruct (scanItem_summary e o oRect cRect x n l v) as
          [(_ & ->)
          |[(Hxo & Hc & _ & _ & Hp & _)
           |[(_ & _ & _ & _ & _ & _ & Hp & _)
            |[(_ & _ & _ & _ & _ & _ & Hp & _)
             |[(_ & _ & _ & _ & _ & _ & Hp & _)
              |(_ & _ & _ & _ & _ & Hp & _)]]]]]; rewrite ?Hp.
      * done.
      * intros [Hin|Hin]%elem_of_app; [by apply Hold|].
        apply list_elem_of_singleton in Hin. injection Hin as ->.
        split; [lia|]. by exists x.
      * intros Hin%Hdrop; [by apply Hold|done].
      * intros Hin%Hdrop; [by apply Hold|done].
      * done.
      * done.
  - simpl. split; [|split; [|split]].
    + done.
    + intros k y L Hk Hy. apply lookup_lt_Some in Hy. lia.
    + intros k y Hk Hy. apply lookup_lt_Some in Hy. lia.
    + intros i Hin. by apply elem_of_nil in Hin.
Qed.

End Items.

Lemma croppedUpwards_lookup real cropped cs i j x y :
  croppedUpwards real cropped cs = true →
  (i < j)%nat → cs !! i = Some x → cs !! j = Some y →
  real x = true → cropped x = true → real y = true → cropped y = true.
Proof.
  revert i j. induction cs as [|z cs IH]; intros i j Hm Hij Hx Hy Hrx Hcx Hry; [done|].
  simpl in Hm. apply andb_true_iff in Hm as [Hz Hrest].
  destruct i as [|i].
  - simpl in Hx. injection Hx as ->. rewrite Hrx, Hcx in Hz. simpl in Hz.
    destruct j as [|j]; [lia|]. simpl in Hy.
    rewrite forallb_forall in Hz. specialize (Hz y).
    rewrite Hry in Hz. simpl in Hz. apply Hz.
    apply list_elem_of_In, list_elem_of_lookup. eauto.
  - destruct j as [|j]; [lia|]. simpl in Hx, Hy.
    apply (IH i j); try done. lia.
Qed.

(** C2, as amended.  When item [i] is hidden because it is cropped (the
    scan has found it out of the crop rectangle), every item after [i] that
    is itself cropped is hidden after the pass; so every item after [i] is
    hidden when the layout is monotonic, each item that follows a cropped
    item being cropped too.  The children of the overflow container are
    taken to be distinct elements, and the overflow item is not an item. *)
Theorem cropped_item_hides_later_items (e : Env) (w : World) (c o m : Elem)
    (i j : nat) (y : Elem) :
  overflowContainerRef e = Some c →
  overflowItemRef e = Some o →
  offsetMeasureRef e = Some m →
  NoDup (children e c) →
  Overflow i ∈ probes (scan e c o (scrollToStart e w)).1 →
  (i < j)%nat →
  children e c !! j = Some y →
  y ≠ o →
  isItemOverflowing (getBoundingClientRect e y) (getBoundingClientRect e c) = true
  ∨ cropMonotone e c o = true →
  isHidden (hideOverflowItems e w) y = true.
Proof.
  intros Hc Ho Hm Hnd Hi Hij Hy Hyo Hgeom.
  rewrite (hideOverflowItems_eq e c o m) by done.
  destruct (scan_items e o (getBoundingClientRect e o) (getBoundingClientRect e c)
              (children e c) (scrollToStart e w) Hnd) as (n & _ & _ & Q8 & Q9).
  fold (scan e c o (scrollToStart e w)) in Q8, Q9.
  destruct (Q9 i Hi) as (Hn & x & Hx & Hxo & Hcx).
  destruct (scan e c o (scrollToStart e w)) as [l w1]. simpl in Q8.
  unfold isHidden. rewrite finish_other by done.
  apply (Q8 j y); [lia|done|done|].
  destruct Hgeom as [Hcy|Hmono]; [done|].
  apply (croppedUpwards_lookup _ _ _ i j x y Hmono); try done.
  - by apply negb_true_iff, Pos.eqb_neq.
  - by apply negb_true_iff, Pos.eqb_neq.
Qed.

Lemma cropped_item_hides_later_items_witness :
  isHidden (hideOverflowItems narrow fresh) 4 = true.
Proof.
  apply (cropped_item_hides_later_items narrow fresh 1 5 6 1 2 4); try reflexivity.
  - apply (bool_decide_eq_true_1 (NoDup [2; 3; 4; 5]%positive)). reflexivity.
  - change (Overflow 1 ∈ [Overflow 2; Overflow 1; Collision 0 false]).
    apply list_elem_of_In. simpl. auto.
  - lia.
  - discriminate.
  - right. reflexivity.
Defined.

(** C2, as stated, fails: in [stickingOut], with the second item hidden by
    an earlier pass, the scan shows the second item, then finds the first
    item cropped and hides it; the second item, which comes after it, is
    visible after the pass. *)
Lemma cropped_item_later_visible_counterexample :
  let w := world [(2, focusable); (3, hiddenItem); (5, focusable)]%positive None in
  probes (scan stickingOut 1 5 (scrollToStart stickingOut w)).1 = [Overflow 0]
  ∧ children stickingOut 1 !! 0%nat = Some 2%positive
  ∧ children stickingOut 1 !! 1%nat = Some 3%positive
  ∧ isHidden (hideOverflowItems stickingOut w) 2 = true
  ∧ isHidden (hideOverflowItems stickingOut w) 3 = false.
Proof. vm_compute. done. Qed.

(** ** How far a scan goes

    A scan stops at the first item it keeps (an item that is not cropped
    and, where the collision test applies, does not collide) that was
    visible already.  The lemmas below say which earlier items it has
    reached by then. *)

Section Reach.
Variable e : Env.
Variables (o : Elem) (oRect cRect : ClientRect).

Local Abbreviation step := (scanItem e o oRect cRect).
Local Abbreviation cropped x := (isItemOverflowing (getBoundingClientRect e x) cRect).

(** The items of [cs] after a scan that began in [w] with a last visible
    item already recorded: an item is hidden exactly when it is cropped if
    every fitting item after it was hidden in [w], and it is as it was in
    [w] if some fitting item after it was visible in [w]. *)
Local Abbreviation settledAll cs w s :=
  (∀ (k : nat) (y : Elem), cs !! k = Some y → y ≠ o →
     ((∀ (j : nat) (x' : Elem), (k < j)%nat → cs !! j = Some x' → x' ≠ o →
         cropped x' = false → isHidden w x' = true) →
      isHidden (snd s) y = cropped y)
     ∧ (∀ (j : nat) (x' : Elem), (k < j)%nat → cs !! j = Some x' → x' ≠ o →
          cropped x' = false → isHidden w x' = false →
          getElem (snd s) y = getElem w y)).

(** The same for the items before index [L], looking at the items up to
    [L]. *)
Local Abbreviation settled cs w s L :=
  (∀ (k : nat) (y : Elem), (k < L)%nat → cs !! k = Some y → y ≠ o →
     ((∀ (j : nat) (x' : Elem), (k < j)%nat ∧ (j ≤ L)%nat → cs !! j = Some x' → x' ≠ o →
         cropped x' = false → isHidden w x' = true) →
      isHidden (snd s) y = cropped y)
     ∧ (∀ (j : nat) (x' : Elem), (k < j)%nat ∧ (j ≤ L)%nat → cs !! j = Some x' → x' ≠ o →
          cropped x' = false → isHidden w x' = false →
          getElem (snd s) y = getElem w y)).

Lemma rememberAndShow_later x r i l w :
  is_Some (lastVisible l) →
  rememberAndShow e x r i (l, w)
  = (isHidden w x,
     (l, if isHidden w x then setElem x (shownState e (getElem w x)) w else w)).
Proof.
  intros [p Hp]. unfold rememberAndShow. rewrite Hp, show_eq.
  by destruct (isHidden w x).
Qed.

Lemma settledAll_continue cs x w w' (s : Locals * World) :
  x ∉ cs →
  (∀ y, y ∈ cs → getElem w' y = getElem w y) →
  (x ≠ o → cropped x = false → isHidden w x = true) →
  (x ≠ o → isHidden s.2 x = cropped x) →
  settledAll cs w' s → settledAll (cs ++ [x]) w s.
Proof.
  intros Hx Hsame Hpass Hself H k y Hy Hyo.
  apply lookup_app_Some in Hy as [Hy|[Hk Hy]].
  - destruct (H k y Hy Hyo) as [A B]. split.
    + intros Hprem. apply A. intros j x' Hj Hx' Hx'o Hc.
      unfold isHidden. rewrite Hsame by (apply list_elem_of_lookup; eauto).
      apply (Hprem j x'); try done. by apply lookup_app_l_Some.
    + intros j x' Hj Hx' Hx'o Hc Hv.
      apply lookup_app_Some in Hx' as [Hx'|[Hjl Hx']].
      * rewrite <- (Hsame y) by (apply list_elem_of_lookup; eauto).
        apply (B j x'); try done.
        unfold isHidden. rewrite Hsame by (apply list_elem_of_lookup; eauto). done.
      * apply list_lookup_singleton_Some in Hx' as [_ <-].
        rewrite Hpass in Hv; done.
  - apply list_lookup_singleton_Some in Hy as [Hk0 <-]. split.
    + intros _. by apply Hself.
    + intros j x' Hj Hx'. apply lookup_lt_Some in Hx'.
      rewrite length_app in Hx'. simpl in Hx'. lia.
Qed.

Lemma settledAll_stop cs x (l' : Locals) w w' :
  (∀ y, getElem w' y = getElem w y) →
  x ≠ o → cropped x = false → isHidden w x = false →
  settledAll (cs ++ [x]) w (l', w').
Proof.
  intros Hsame Hxo Hc Hv k y Hy Hyo. simpl.
  apply lookup_app_Some in Hy as [Hy|[Hk Hy]].
  - split; [|by intros]. intros Hprem.
    rewrite (Hprem (length cs) x) in Hv; try done.
    + by apply lookup_lt_Some in Hy.
    + by rewrite lookup_app_r, Nat.sub_diag.
  - apply list_lookup_singleton_Some in Hy as [_ <-]. split; [|by intros].
    intros _. unfold isHidden. rewrite Hsame. fold (isHidden w x). congruence.
Qed.

(** Once a last visible item is recorded, the scan goes on as long as the
    fitting items it meets were hidden. *)
Lemma scan_after_last cs :
  NoDup cs → ∀ l w, is_Some (lastVisible l) →
  settledAll cs w (forEachRight cs step (l, w)).
Proof.
  induction cs as [|x cs IH] using rev_ind; intros Hnd l w Hl.
  { intros k y Hy. done. }
  apply NoDup_app in Hnd as (Hnd & Hx & _).
  assert (x ∉ cs) as Hxcs by (intros ?; eapply Hx; [done|by left]).
  rewrite forEachRight_snoc.
  destruct (decide (x = o)) as [->|Hxo].
  - rewrite scanItem_skip.
    apply (settledAll_continue cs o w w); [done|done|done|done|by apply IH].
  - destruct (cropped x) eqn:Hc.
    + rewrite scanItem_cropped by done.
      apply (settledAll_continue cs x w (hide e x w)).
      * done.
      * intros y Hy. apply getElem_hide_ne. by intros ->.
      * congruence.
      * intros _. unfold isHidden. rewrite forEachRight_other by done.
        rewrite Hc. apply isHidden_hide.
      * by apply IH.
    + rewrite scanItem_fits by (done || by right).
      rewrite rememberAndShow_later by done.
      destruct (isHidden w x) eqn:Hh.
      * apply (settledAll_continue cs x w (setElem x (shownState e (getElem w x)) w)).
        -- done.
        -- intros y Hy. apply getElem_setElem_ne. by intros ->.
        -- done.
        -- intros _. unfold isHidden. rewrite forEachRight_other by done.
           by rewrite getElem_setElem, shownState_visibility, Hc.
        -- by apply IH.
      * by apply settledAll_stop.
Qed.

Lemma settled_of_all cs x w (s : Locals * World) :
  settledAll (cs ++ [x]) w s → settled (cs ++ [x]) w s (length cs).
Proof.
  intros H k y Hk Hy Hyo. destruct (H k y Hy Hyo) as [A B]. split.
  - intros Hprem. apply A. intros j x' Hj Hx'. apply (Hprem j x'); [|done].
    apply lookup_lt_Some in Hx'. rewrite length_app in Hx'. simpl in Hx'. lia.
  - intros j x' [Hj _]. by apply B.
Qed.

Lemma settled_continue cs x w w' (s : Locals * World) L :
  (L < length cs)%nat →
  (∀ y, y ∈ cs → getElem w' y = getElem w y) →
  settled cs w' s L → settled (cs ++ [x]) w s L.
Proof.
  intros HL Hsame H k y Hk Hy Hyo.
  rewrite lookup_app_l in Hy by lia.
  destruct (H k y Hk Hy Hyo) as [A B]. split.
  - intros Hprem. apply A. intros j x' Hj Hx' Hx'o Hc.
    unfold isHidden. rewrite Hsame by (apply list_elem_of_lookup; eauto).
    apply (Hprem j x'); try done. by apply lookup_app_l_Some.
  - intros j x' Hj Hx' Hx'o Hc Hv. rewrite lookup_app_l in Hx' by lia.
    rewrite <- (Hsame y) by (apply list_elem_of_lookup; eauto).
    apply (B j x'); try done.
    unfold isHidden. rewrite Hsame by (apply list_elem_of_lookup; eauto). done.
Qed.

(** The last visible item a scan records is the item at the index it
    writes to the ref, with its own rectangle, and it is visible when the
    scan ends; the items before it are settled as above. *)
Lemma scan_first_visible cs :
  NoDup cs → ∀ l w, lastVisible l = None →
  ∀ x r, lastVisible (forEachRight cs step (l, w)).1 = Some (x, r) →
  ∃ L : nat,
    cs !! L = Some x ∧ x ≠ o ∧ r = getBoundingClientRect e x
    ∧ lastVisibleItemIndex (forEachRight cs step (l, w)).2 = Some (Z.of_nat L)
    ∧ isHidden (forEachRight cs step (l, w)).2 x = false
    ∧ settled cs w (forEachRight cs step (l, w)) L.
Proof.
  induction cs as [|x0 cs IH] using rev_ind; intros Hnd l w Hl x r.
  { rewrite forEachRight_nil. simpl. congruence. }
  apply NoDup_app in Hnd as (Hnd & Hx & _).
  assert (x0 ∉ cs) as Hxcs by (intros ?; eapply Hx; [done|by left]).
  assert (Hlift : ∀ l' w',
    lastVisible l' = None →
    (∀ y, y ∈ cs → getElem w' y = getElem w y) →
    lastVisible (forEachRight cs step (l', w')).1 = Some (x, r) →
    ∃ L : nat,
      (cs ++ [x0]) !! L = Some x ∧ x ≠ o ∧ r = getBoundingClientRect e x
      ∧ lastVisibleItemIndex (forEachRight cs step (l', w')).2 = Some (Z.of_nat L)
      ∧ isHidden (forEachRight cs step (l', w')).2 x = false
      ∧ settled (cs ++ [x0]) w (forEachRight cs step (l', w')) L).
  { intros l' w' Hl' Hsame Hlv.
    destruct (IH Hnd l' w' Hl' x r Hlv) as (L & HL & Hxo & Hr & Hidx & Hvis & Hset).
    exists L. split; [by apply lookup_app_l_Some|].
    split; [done|]. split; [done|]. split; [done|]. split; [done|].
    apply (settled_continue cs x0 w w'); [by apply lookup_lt_Some in HL|done|done]. }
  assert (Hrec : ∀ l', x0 ≠ o → cropped x0 = false →
    lastVisible
      (if isHidden w x0
       then forEachRight cs step
              (setLastVisible x0 (getBoundingClientRect e x0) l',
               setElem x0 (shownState e (getElem w x0))
                 (setLastVisibleItemIndex (Z.of_nat (length cs)) w))
       else (setLastVisible x0 (getBoundingClientRect e x0) l',
             setLastVisibleItemIndex (Z.of_nat (length cs)) w)).1 = Some (x, r) →
    ∃ L : nat,
      (cs ++ [x0]) !! L = Some x ∧ x ≠ o ∧ r = getBoundingClientRect e x
      ∧ lastVisibleItemIndex
          (if isHidden w x0
           then forEachRight cs step
                  (setLastVisible x0 (getBoundingClientRect e x0) l',
                   setElem x0 (shownState e (getElem w x0))
                     (setLastVisibleItemIndex (Z.of_nat (length cs)) w))
           else (setLastVisible x0 (getBoundingClientRect e x0) l',
                 setLastVisibleItemIndex (Z.of_nat (length cs)) w)).2
        = Some (Z.of_nat L)
      ∧ isHidden
          (if isHidden w x0
           then forEachRight cs step
                  (setLastVisible x0 (getBoundingClientRect e x0) l',
                   setElem x0 (shownState e (getElem w x0))
                     (setLastVisibleItemIndex (Z.of_nat (length cs)) w))
           else (setLastVisible x0 (getBoundingClientRect e x0) l',
                 setLastVisibleItemIndex (Z.of_nat (length cs)) w)).2 x = false
      ∧ settled (cs ++ [x0]) w
          (if isHidden w x0
           then forEachRight cs step
                  (setLastVisible x0 (getBoundingClientRect e x0) l',
                   setElem x0 (shownState e (getElem w x0))
                     (setLastVisibleItemIndex (Z.of_nat (length cs)) w))
           else (setLastVisible x0 (getBoundingClientRect e x0) l',
                 setLastVisibleItemIndex (Z.of_nat (length cs)) w)) L).
  { intros l' Hxo Hc. destruct (isHidden w x0) eqn:Hh.
    - destruct (forEachRight_after_last e o oRect cRect cs
                  (setLastVisible x0 (getBoundingClientRect e x0) l')
                  (setElem x0 (shownState e (getElem w x0))
                     (setLastVisibleItemIndex (Z.of_nat (length cs)) w)))
        as (G1 & G2 & _); [by eexists|].
      intros Hlv. rewrite G1 in Hlv. simpl in Hlv. injection Hlv as <- <-.
      assert (Hshown : isHidden
                (forEachRight cs step
                   (setLastVisible x0 (getBoundingClientRect e x0) l',
                    setElem x0 (shownState e (getElem w x0))
                      (setLastVisibleItemIndex (Z.of_nat (length cs)) w))).2 x0 = false).
      { unfold isHidden. rewrite forEachRight_other by done.
        by rewrite getElem_setElem, shownState_visibility. }
      exists (length cs). split; [by rewrite lookup_app_r, Nat.sub_diag|].
      split; [done|]. split; [done|]. split; [by rewrite G2|]. split; [done|].
      apply settled_of_all.
      apply (settledAll_continue cs x0 w
               (setElem x0 (shownState e (getElem w x0))
                  (setLastVisibleItemIndex (Z.of_nat (length cs)) w))).
      + done.
      + intros y Hy. rewrite getElem_setElem_ne by (by intros ->). done.
      + done.
      + intros _. by rewrite Hshown, Hc.
      + apply scan_after_last; [done|by eexists].
    - simpl. intros [= <- <-].
      exists (length cs). split; [by rewrite lookup_app_r, Nat.sub_diag|].
      split; [done|]. split; [done|]. split; [done|]. split; [done|].
      apply (settled_of_all cs x0 w
               (setLastVisible x0 (getBoundingClientRect e x0) l',
                setLastVisibleItemIndex (Z.of_nat (length cs)) w)).
      by apply settledAll_stop. }
  rewrite forEachRight_snoc.
  destruct (scanItem_cases e o oRect cRect x0 (length cs) l w)
    as [(Hxo & E1)|[(Hxo & Hc & E1)|[(Hxo & Hc & Hov & _ & Hcol & E1)|
        [(Hxo & Hc & Hov & _ & Hcol & E1)|(Hxo & Hc & Hcond & E1)]]]];
    rewrite E1; clear E1.
  - by apply Hlift.
  - apply Hlift; [done|]. intros y Hy. apply getElem_hide_ne. by intros ->.
  - apply Hlift; [done|]. intros y Hy. apply getElem_hide_ne. by intros ->.
  - rewrite remember_then_continue by done. by apply Hrec.
  - rewrite remember_then_continue by done. by apply Hrec.
Qed.

End Reach.

(** C4, as amended.  During a scan the collision test is applied only to
    items met after some item was found cropped and before the last visible
    item is determined: a tested item that does not collide is the last
    visible item (it is recorded with its index and it is visible when the
    scan ends), and a tested item that collides lies after the last visible
    item.  Once the last visible item is recorded (with its index in the
    ref), no earlier item is tested for collision, but the cropping test
    still applies.  The scan reaches an earlier item exactly when every
    fitting (not cropped) item from the one after it up to the last visible
    item was hidden before the scan, for the scan stops at the first item it
    keeps that was visible already: an item it reaches is hidden exactly
    when it is cropped, and an item it does not reach is left as it was.
    The children of the overflow container are taken to be distinct
    elements, and the overflow item is not an item. *)
Theorem collision_test_window (e : Env) (w : World) (c o : Elem) :
  NoDup (children e c) →
  let s := scan e c o w in
  let cropped := λ x,
    isItemOverflowing (getBoundingClientRect e x) (getBoundingClientRect e c) in
  (∀ i b, Collision i b ∈ probes s.1 → ∃ j, (i < j)%nat ∧ Overflow j ∈ probes s.1)
  ∧ (∀ i, Collision i false ∈ probes s.1 →
       ∃ x, children e c !! i = Some x ∧ x ≠ o
            ∧ lastVisible s.1 = Some (x, getBoundingClientRect e x)
            ∧ lastVisibleItemIndex s.2 = Some (Z.of_nat i)
            ∧ isHidden s.2 x = false)
  ∧ (∀ i L, Collision i true ∈ probes s.1 → is_Some (lastVisible s.1) →
       lastVisibleItemIndex s.2 = Some (Z.of_nat L) → (L < i)%nat)
  ∧ (is_Some (lastVisible s.1) → ∃ L, lastVisibleItemIndex s.2 = Some (Z.of_nat L))
  ∧ (∀ L k y, is_Some (lastVisible s.1) → lastVisibleItemIndex s.2 = Some (Z.of_nat L) →
       (k < L)%nat → children e c !! k = Some y → y ≠ o →
       (∀ b, Collision k b ∉ probes s.1)
       ∧ ((∀ j x, (k < j ≤ L)%nat → children e c !! j = Some x → x ≠ o →
             cropped x = false → isHidden w x = true) →
          isHidden s.2 y = cropped y)
       ∧ (∀ j x, (k < j ≤ L)%nat → children e c !! j = Some x → x ≠ o →
            cropped x = false → isHidden w x = false →
            getElem s.2 y = getElem w y)).
Proof.
  intros Hnd s cropped. subst s cropped. unfold scan.
  destruct (scan_probes e o (getBoundingClientRect e o) (getBoundingClientRect e c)
              (children e c) w) as (n1 & P1 & P2 & _ & P4 & P5 & _).
  pose proof (scan_first_visible e o (getBoundingClientRect e o) (getBoundingClientRect e c)
                (children e c) Hnd initLocals w eq_refl) as F.
  split; [|split; [|split; [|split]]].
  - intros i b Hin. by destruct (P1 i b Hin) as [_ Hj].
  - intros i Hin.
    destruct (lastVisible (forEachRight (children e c) _ (initLocals, w)).1)
      as [[x r]|] eqn:Hlv; [|by destruct (P5 eq_refl i)].
    destruct (F x r eq_refl) as (L & HL & Hxo & -> & Hidx & Hvis & _).
    destruct (P2 i false L Hin (ltac:(by eexists)) Hidx) as (_ & _ & HLi).
    rewrite (HLi eq_refl) in HL, Hidx. by exists x.
  - intros i L Hin HS HL. destruct (P2 i true L Hin HS HL) as (_ & Hlt & _). by apply Hlt.
  - intros HS. destruct (P4 HS) as (L & _ & HL). eauto.
  - intros L k y HS HL Hk Hy Hyo. split.
    + intros b Hin. destruct (P2 k b L Hin HS HL) as [? _]. lia.
    + destruct HS as [[x r] Hlv].
      destruct (F x r Hlv) as (L' & _ & _ & _ & Hidx & _ & Hset).
      assert (L' = L) as -> by (rewrite Hidx in HL; injection HL; lia).
      by apply Hset.
Qed.

Lemma collision_test_window_witness :
  (∃ j, (0 < j)%nat ∧ Overflow j ∈ probes (scan narrow 1 5 fresh).1)
  ∧ lastVisibleItemIndex (scan narrow 1 5 fresh).2 = Some 0.
Proof.
  assert (Hin : Collision 0 false ∈ probes (scan narrow 1 5 fresh).1).
  { change (Collision 0 false ∈ [Overflow 2; Overflow 1; Collision 0 false]).
    apply list_elem_of_In. simpl. auto. }
  destruct (collision_test_window narrow fresh 1 5) as (H1 & H2 & _).
  - apply (bool_decide_eq_true_1 (NoDup [2; 3; 4; 5]%positive)). reflexivity.
  - split; [exact (H1 0%nat false Hin)|].
    destruct (H2 0%nat Hin) as (x & _ & _ & _ & Hidx & _). exact Hidx.
Defined.

(** C4, as stated, fails in its second half.  In [stickingOut], with the
    second item hidden by an earlier pass, the scan records the second item
    (index 1) as the last visible one and goes on to the first item, which
    was visible; it applies the cropping test to it, finds it cropped and
    hides it.  In [scenario], with the first item hidden by an earlier
    pass, the scan records the second item as the last visible one and
    stops there, that item being visible already: the first item, which
    fits, stays hidden. *)
Lemma earlier_item_hidden_counterexample :
  let w := world [(2, focusable); (3, hiddenItem); (5, focusable)]%positive None in
  let s := scan stickingOut 1 5 w in
  let w' :=
    world [(2, hiddenItem); (3, focusable); (4, focusable); (5, focusable)]%positive None in
  let s' := scan scenario 1 5 w' in
  (lastVisible s.1 = Some (3%positive, stickingOutRect 3)
   ∧ lastVisibleItemIndex s.2 = Some 1
   ∧ children stickingOut 1 !! 0%nat = Some 2%positive
   ∧ isHidden w 2 = false
   ∧ probes s.1 = [Overflow 0]
   ∧ isHidden s.2 2 = true)
  ∧ (lastVisible s'.1 = Some (3%positive, scenarioRect 3)
     ∧ lastVisibleItemIndex s'.2 = Some 1
     ∧ children scenario 1 !! 0%nat = Some 2%positive
     ∧ isItemOverflowing (scenarioRect 2) (scenarioRect 1) = false
     ∧ probes s'.1 = [Overflow 2; Collision 1 false]
     ∧ isHidden s'.2 2 = true).
Proof. vm_compute. done. Qed.

(** * More about the visible items and the overflow menu *)

Lemma relativeIndex_nonneg len n :
  0 ≤ n → relativeIndex len (Some n) = (Z.to_nat n `min` len)%nat.
Proof. intros. unfold relativeIndex. simpl. destruct (n <? 0) eqn:H'; lia. Qed.

Lemma slice_split {A : Type} (items : list A) (n : option Z) :
  slice items (Some 0) (Some n) ++ slice items n None = items.
Proof.
  unfold slice. set (k := relativeIndex (length items) n).
  assert (Hk : (k ≤ length items)%nat).
  { unfold k, relativeIndex. destruct (default 0 n <? 0) eqn:Hn; lia. }
  rewrite relativeIndex_nonneg by lia. simpl.
  rewrite Nat.sub_0_r, drop_0.
  rewrite (take_ge (drop k items)) by (rewrite length_drop; lia).
  apply take_drop.
Qed.

(** X6.  While the overflow menu is open and no [getOverflowItems] is
    given, the items the toolbar renders followed by the items it hands to
    the overflow menu are the items of the props, in order, whatever the
    ref holds (undefined before the first pass, -1, an index past the end);
    while the menu is closed the toolbar renders every item. *)
Theorem visible_and_overflow_items_partition {A : Type} (items : list A)
    (lastVisibleItemIndex : option Z) :
  getVisibleItems items true lastVisibleItemIndex
    ++ collectOverflowItems items None lastVisibleItemIndex = items
  ∧ getVisibleItems items false lastVisibleItemIndex = items.
Proof.
  split.
  - unfold getVisibleItems, collectOverflowItems. apply slice_split.
  - unfold getVisibleItems, slice.
    rewrite !relativeIndex_nonneg by lia.
    rewrite Nat2Z.id, Nat.min_id. simpl. rewrite Nat.sub_0_r, drop_0.
    by apply take_ge.
Qed.

(** X7.  Once a pass has run to its end the ref holds an index that is at
    least -1, so the overflow menu gets the items from position index + 1 on
    and, with the menu open, the toolbar renders the first index + 1 items
    (all of them when the index is past the end). *)
Theorem items_after_pass {A : Type} (items : list A) (e : Env) (w : World) (c o m : Elem) :
  overflowContainerRef e = Some c →
  overflowItemRef e = Some o →
  offsetMeasureRef e = Some m →
  items_length e = Z.of_nat (length items) →
  ∃ n : nat,
    lastVisibleItemIndex (hideOverflowItems e w) = Some (Z.of_nat n - 1)
    ∧ collectOverflowItems items None (lastVisibleItemIndex (hideOverflowItems e w))
      = drop n items
    ∧ getVisibleItems items true (lastVisibleItemIndex (hideOverflowItems e w))
      = take n items.
Proof.
  intros Hc Ho Hm Hlen.
  rewrite (hideOverflowItems_eq e c o m) by done.
  destruct (scan e c o (scrollToStart e w)) as [l w1] eqn:Hscan.
  assert (Hidx : is_Some (lastVisible l) →
            ∃ L : nat, lastVisibleItemIndex w1 = Some (Z.of_nat L)).
  { intros HS.
    destruct (scan_probes e o (getBoundingClientRect e o) (getBoundingClientRect e c)
                (children e c) (scrollToStart e w)) as (n1 & _ & _ & _ & P4 & _).
    fold (scan e c o (scrollToStart e w)) in P4. rewrite Hscan in P4.
    destruct (P4 HS) as (L & _ & HL). eauto. }
  assert (∃ n : nat, lastVisibleItemIndex (finish e c o m (l, w1)) = Some (Z.of_nat n - 1))
    as [n Hn].
  { rewrite finish_index. destruct (isOverflowing l || overflowOpen e).
    - destruct (lastVisible l) eqn:Hl.
      + destruct Hidx as [L HL]; [eauto|]. exists (S L). rewrite HL. f_equal. lia.
      + exists 0%nat. done.
    - exists (length items). by rewrite Hlen. }
  exists n. rewrite Hn. split; [done|].
  unfold collectOverflowItems, getVisibleItems, slice, indexPlusOne.
  cbn [fmap option_fmap option_map].
  rewrite !relativeIndex_nonneg by lia.
  replace (Z.to_nat (Z.of_nat n - 1 + 1)) with n by lia.
  simpl. rewrite Nat.sub_0_r, drop_0. split.
  - destruct (decide (n ≤ length items)%nat).
    + rewrite Nat.min_l by lia. apply take_ge. rewrite length_drop. lia.
    + rewrite Nat.min_r by lia. rewrite Nat.sub_diag. simpl.
      rewrite !drop_ge by lia. done.
  - destruct (decide (n ≤ length items)%nat).
    + rewrite Nat.min_l by lia. done.
    + rewrite Nat.min_r by lia. rewrite !take_ge by lia. done.
Qed.

Lemma items_after_pass_witness :
  ∃ n : nat,
    lastVisibleItemIndex (hideOverflowItems scenario fresh) = Some (Z.of_nat n - 1)
    ∧ collectOverflowItems ["a"; "b"; "c"] None
        (lastVisibleItemIndex (hideOverflowItems scenario fresh))
      = drop n ["a"; "b"; "c"].
Proof.
  destruct (items_after_pass ["a"; "b"; "c"] scenario fresh 1 5 6 eq_refl eq_refl eq_refl eq_refl)
    as (n & Hn & Hdrop & _).
  exists n. split; [exact Hn|exact Hdrop].
Defined.

(** * More about the popup behaviour *)

Section PopupFacts.
Import Popup.
Variable NODE_ENV : string.

Lemma trigger_attribute_lookup props b name :
  popupBehavior NODE_ENV props = Normal b →
  name ≠ "aria-disabled" →
  ∃ ttp, tabbableTriggerProps NODE_ENV props = Normal ttp
         ∧ attributes_trigger b !! name = default ∅ ttp !! name.
Proof.
  intros Hb Hname. unfold popupBehavior in Hb.
  destruct (tabbableTriggerProps NODE_ENV props) as [ttp|]; [|done].
  injection Hb as <-. exists ttp. split; [done|]. simpl. by rewrite lookup_insert_ne.
Qed.

Lemma tabIndex_lookup props b :
  popupBehavior NODE_ENV props = Normal b →
  attributes_trigger b !! "tabIndex"
  = if default false (tabbableTrigger props)
    then match getAriaAttributeFromProps "tabIndex" props (VNum 0) with
         | Normal v => Some v
         | TypeError => None
         end
    else None.
Proof.
  intros Hb. destruct (trigger_attribute_lookup props b "tabIndex" Hb) as (ttp & Ht & ->);
    [done|].
  unfold tabbableTriggerProps in Ht.
  destruct (default false (tabbableTrigger props)); [|by injection Ht as <-].
  destruct (getAriaAttributeFromProps "tabIndex" props (VNum 0)) as [v|]; [|done].
  injection Ht as <-. simpl.
  destruct (negb (String.eqb NODE_ENV "production")).
  - rewrite !lookup_insert_ne by done. by rewrite lookup_singleton_eq.
  - rewrite lookup_insert_ne by done. by rewrite lookup_singleton_eq.
Qed.

Lemma popupBehavior_returns props :
  (tabbableTrigger props = Some true →
   ∀ t, trigger props = Some t → is_Some (trigger_props t)) →
  ∃ b, popupBehavior NODE_ENV props = Normal b.
Proof.
  intros Hprops. destruct (popupBehavior NODE_ENV props) as [b|] eqn:Hb; [by exists b|].
  apply popupBehavior_throws in Hb as (Ht & t & Htr & Hnone).
  destruct (Hprops Ht t Htr) as [? ?]. congruence.
Qed.

End PopupFacts.

(** X8.  [popupBehavior] returns with [tabIndex] 0 on the trigger exactly
    when the caller asks for a tabbable trigger, a trigger element with
    [props] is there, the element brings no tab index of its own (none, or
    an empty one) and it is not focusable by itself (a button, an input, an
    anchor with an href, or rendered as a button).  A tab index the element
    brings is passed on as it is. *)
Theorem popupBehavior_tabIndex (NODE_ENV : string) (props : Popup.PopupBehaviorProps) :
  ((∃ b, Popup.popupBehavior NODE_ENV props = Popup.Normal b
         ∧ Popup.attributes_trigger b !! "tabIndex" = Some (Popup.VNum 0))
   ↔ Popup.tabbableTrigger props = Some true
     ∧ ∃ t tprops, Popup.trigger props = Some t
            ∧ Popup.trigger_props t = Some tprops
            ∧ (tprops !! "tabIndex" = None ∨ tprops !! "tabIndex" = Some "")
            ∧ Popup.isFocusable (tprops !! "as") (tprops !! "href") (Popup.trigger_type t)
              = false)
  ∧ (∀ t tprops v, Popup.tabbableTrigger props = Some true →
       Popup.trigger props = Some t →
       Popup.trigger_props t = Some tprops →
       tprops !! "tabIndex" = Some v → v ≠ "" →
       ∃ b, Popup.popupBehavior NODE_ENV props = Popup.Normal b
            ∧ Popup.attributes_trigger b !! "tabIndex" = Some (Popup.VStr v)).
Proof.
  split.
  - split.
    + intros (b & Hb & Hidx). rewrite (tabIndex_lookup NODE_ENV props b Hb) in Hidx.
      unfold Popup.getAriaAttributeFromProps in Hidx.
      destruct (Popup.tabbableTrigger props) as [[|]|]; simpl in Hidx; try done.
      destruct (Popup.trigger props) as [t|]; [|done].
      destruct (Popup.trigger_props t) as [tprops|] eqn:Htp; [|done].
      split; [done|]. exists t, tprops. split; [done|]. split; [done|].
      destruct (tprops !! "tabIndex") as [v|] eqn:Hv.
      * destruct (String.eqb_spec v "") as [->|Hne]; [|done].
        split; [by right|]. by destruct (Popup.isFocusable _ _ _).
      * split; [by left|]. by destruct (Popup.isFocusable _ _ _).
    + intros (Ht & t & tprops & Htr & Htp & Hidx & Hf).
      destruct (popupBehavior_returns NODE_ENV props) as [b Hb].
      { intros _ t' Ht'. rewrite Htr in Ht'. injection Ht' as <-. by rewrite Htp. }
      exists b. split; [done|]. rewrite (tabIndex_lookup NODE_ENV props b Hb).
      unfold Popup.getAriaAttributeFromProps. rewrite Ht, Htr, Htp. simpl. rewrite Hf.
      destruct Hidx as [-> | ->]; done.
  - intros t tprops v Ht Htr Htp Hidx Hv.
    destruct (popupBehavior_returns NODE_ENV props) as [b Hb].
    { intros _ t' Ht'. rewrite Htr in Ht'. injection Ht' as <-. by rewrite Htp. }
    exists b. split; [done|]. rewrite (tabIndex_lookup NODE_ENV props b Hb).
    unfold Popup.getAriaAttributeFromProps. rewrite Ht, Htr, Htp, Hidx. simpl.
    apply String.eqb_neq in Hv. by rewrite Hv.
Qed.

Lemma popupBehavior_tabIndex_witness :
  let props :=
    {| Popup.trapFocus := Popup.TrapUndefined; Popup.on := Popup.OnUndefined;
       Popup.disabled := None;
       Popup.trigger :=
         Some {| Popup.trigger_props := Some {[ "tabIndex" := "-1" ]};
                 Popup.trigger_type := Some "div" |};
       Popup.tabbableTrigger := Some true; Popup.isOpenedByRightClick := None |} in
  ∃ b, Popup.popupBehavior "production" props = Popup.Normal b
       ∧ Popup.attributes_trigger b !! "tabIndex" = Some (Popup.VStr "-1").
Proof.
  intros props.
  destruct (popupBehavior_tabIndex "production" props) as [_ H].
  apply (H {| Popup.trigger_props := Some {[ "tabIndex" := "-1" ]};
              Popup.trigger_type := Some "div" |} {[ "tabIndex" := "-1" ]}); done.
Defined.

(** X9.  The attributes the trigger gets whenever [popupBehavior] returns:
    [aria-disabled] alone unless a tabbable trigger is asked for, and then
    [tabIndex], [aria-haspopup] and [aria-disabled], with [data-aa-class] on
    top in every build but a production build.  It returns unless a
    tabbable trigger is asked for with a trigger that has no [props]. *)
Theorem popupBehavior_trigger_attribute_names (NODE_ENV : string)
    (props : Popup.PopupBehaviorProps) :
  (Popup.tabbableTrigger props = Some true →
   ∀ t, Popup.trigger props = Some t → is_Some (Popup.trigger_props t)) →
  ∃ b, Popup.popupBehavior NODE_ENV props = Popup.Normal b
  ∧ dom (Popup.attributes_trigger b)
    = (if default false (Popup.tabbableTrigger props)
       then {[ "tabIndex"; "aria-haspopup"; "aria-disabled" ]}
            ∪ (if String.eqb NODE_ENV "production" then ∅ else {[ "data-aa-class" ]})
       else {[ "aria-disabled" ]} : gset string).
Proof.
  intros Hprops. destruct (popupBehavior_returns NODE_ENV props Hprops) as [b Hb].
  exists b. split; [done|].
  unfold Popup.popupBehavior, Popup.tabbableTriggerProps in Hb.
  destruct (default false (Popup.tabbableTrigger props)); simpl in *.
  - destruct (Popup.getAriaAttributeFromProps "tabIndex" props (Popup.VNum 0)) as [v|];
      [|done].
    injection Hb as <-. simpl.
    destruct (String.eqb NODE_ENV "production"); simpl;
      rewrite !dom_insert_L, dom_singleton_L; set_solver.
  - injection Hb as <-. simpl. rewrite dom_insert_L, dom_empty_L. set_solver.
Qed.

Lemma popupBehavior_trigger_attribute_names_witness :
  let props :=
    {| Popup.trapFocus := Popup.TrapUndefined; Popup.on := Popup.OnUndefined;
       Popup.disabled := None;
       Popup.trigger :=
         Some {| Popup.trigger_props := Some ∅; Popup.trigger_type := Some "div" |};
       Popup.tabbableTrigger := Some true; Popup.isOpenedByRightClick := None |} in
  ∃ b, Popup.popupBehavior "production" props = Popup.Normal b
  ∧ dom (Popup.attributes_trigger b)
    = ({[ "tabIndex"; "aria-haspopup"; "aria-disabled" ]} ∪ ∅ : gset string).
Proof.
  intros props. apply (popupBehavior_trigger_attribute_names "production" props).
  intros _ t [= <-]. by eexists.
Defined.

(** X10.  The behaviour reads [on] only for the events it names: a single
    event, a one-element array, and an array that repeats or reorders events
    give the same outcome, the same attributes and key actions when the
    call returns. *)
Theorem popupBehavior_on_as_set (NODE_ENV : string) (props : Popup.PopupBehaviorProps)
    (o o' : Popup.On) :
  (∀ ev, ev ∈ Popup.onAsArray o ↔ ev ∈ Popup.onAsArray o') →
  Popup.popupBehavior NODE_ENV (Popup.withOn o props)
  = Popup.popupBehavior NODE_ENV (Popup.withOn o' props).
Proof.
  intros Hsame.
  assert (Hinc : ∀ ev, Popup.includes (Popup.onAsArray o) ev
                       = Popup.includes (Popup.onAsArray o') ev).
  { intros ev. unfold Popup.includes. apply bool_decide_ext, Hsame. }
  unfold Popup.popupBehavior.
  change (Popup.tabbableTriggerProps NODE_ENV (Popup.withOn o props))
    with (Popup.tabbableTriggerProps NODE_ENV props).
  change (Popup.tabbableTriggerProps NODE_ENV (Popup.withOn o' props))
    with (Popup.tabbableTriggerProps NODE_ENV props).
  destruct (Popup.tabbableTriggerProps NODE_ENV props); [|done].
  simpl. rewrite !Hinc. done.
Qed.

Lemma popupBehavior_on_as_set_witness :
  let props :=
    {| Popup.trapFocus := Popup.TrapUndefined; Popup.on := Popup.OnUndefined;
       Popup.disabled := None; Popup.trigger := None;
       Popup.tabbableTrigger := None; Popup.isOpenedByRightClick := Some true |} in
  Popup.popupBehavior "production"
    (Popup.withOn (Popup.OnArray [Popup.context; Popup.hover; Popup.context]) props)
  = Popup.popupBehavior "production"
      (Popup.withOn (Popup.OnArray [Popup.hover; Popup.context]) props).
Proof.
  intros props. apply (popupBehavior_on_as_set "production" props).
  intros ev. simpl. rewrite !elem_of_cons. intuition.
Defined.

(** X11.  With [on] as its type allows it (a single event, or an array of
    click and focus only, or of hover, focus and context only), Enter and
    Space are never bound to both toggling and opening the popup, in
    whatever [popupBehavior] returns. *)
Theorem popupBehavior_toggle_or_open (NODE_ENV : string) (props : Popup.PopupBehaviorProps)
    (b : Popup.Behavior) :
  Popup.restricted (Popup.on props) = true →
  Popup.popupBehavior NODE_ENV props = Popup.Normal b →
  let keys := Popup.keyActions_trigger b in
  Popup.isKeys (Popup.toggle keys) && Popup.isKeys (Popup.open keys) = false.
Proof.
  intros Hr Hb keys. subst keys. unfold Popup.popupBehavior in Hb.
  destruct (Popup.tabbableTriggerProps NODE_ENV props) as [ttp|]; [|done].
  injection Hb as <-. simpl.
  unfold Popup.andKeys, Popup.includes.
  destruct (bool_decide (Some Popup.click ∈ Popup.onAsArray (Popup.on props))) eqn:Hc;
    [|done].
  destruct (bool_decide (Some Popup.hover ∈ Popup.onAsArray (Popup.on props))) eqn:Hh;
    [|done].
  apply bool_decide_eq_true in Hc, Hh. exfalso.
  destruct (Popup.on props) as [|ev|evs]; simpl in *.
  - apply list_elem_of_singleton in Hc. done.
  - apply list_elem_of_singleton in Hc, Hh. congruence.
  - apply list_elem_of_fmap in Hc as (c & [= <-] & Hc).
    apply list_elem_of_fmap in Hh as (h & [= <-] & Hh).
    apply list_elem_of_In in Hc, Hh.
    apply orb_true_iff in Hr as [Hr|Hr]; rewrite forallb_forall in Hr.
    + apply Hr in Hh. apply bool_decide_eq_true in Hh. by destruct Hh.
    + apply Hr in Hc. apply bool_decide_eq_true in Hc. by destruct Hc as [?|[?|?]].
Qed.

Lemma popupBehavior_toggle_or_open_witness :
  let props :=
    {| Popup.trapFocus := Popup.TrapUndefined;
       Popup.on := Popup.OnArray [Popup.hover; Popup.focus];
       Popup.disabled := None; Popup.trigger := None;
       Popup.tabbableTrigger := None; Popup.isOpenedByRightClick := None |} in
  ∃ b, Popup.popupBehavior "production" props = Popup.Normal b
  ∧ Popup.isKeys (Popup.toggle (Popup.keyActions_trigger b))
    && Popup.isKeys (Popup.open (Popup.keyActions_trigger b)) = false.
Proof.
  intros props. eexists. split; [reflexivity|].
  apply (popupBehavior_toggle_or_open "production" props); reflexivity.
Defined.

(** * More about the toggler and the pass *)

(** X1.  Hiding twice is hiding once and showing twice is showing once;
    [show] reports a change exactly when the item was hidden, and an item
    that [hide] has hidden is one that [show] reports a change for. *)
Theorem toggler_idempotent (e : Env) (el : Elem) (w : World) :
  hide e el (hide e el w) = hide e el w
  ∧ show e el (show e el w).2 = (false, (show e el w).2)
  ∧ (show e el w).1 = isHidden w el
  ∧ (show e el (hide e el w)).1 = true.
Proof.
  split; [|split; [|split]].
  - apply hide_hidden, isHidden_hide.
  - apply show_visible, isHidden_show.
  - apply show_changed.
  - by rewrite show_changed, isHidden_hide.
Qed.

Section Frame.
Variable e : Env.

(** How far the state [st'] of an element may be from its state [st]
    before a pass: the inline position and every attribute but the two
    markers are the same, and a hidden [st'] is [st] itself or carries the
    marker ["false"]. *)
Local Abbreviation kept st st' :=
  (style_position st' = style_position st
   ∧ style_left st' = style_left st
   ∧ style_right st' = style_right st
   ∧ (∀ name, name ≠ IS_FOCUSABLE_ATTRIBUTE e → name ≠ WAS_FOCUSABLE_ATTRIBUTE →
        attributes st' !! name = attributes st !! name)
   ∧ (String.eqb (style_visibility st') "hidden" = true →
      st' = st ∨ getAttribute (IS_FOCUSABLE_ATTRIBUTE e) st' = Some "false")).

Lemma hiddenState_kept st st0 :
  kept st0 st → kept st0 (hiddenState e st).
Proof.
  intros (H1 & H2 & H3 & H4 & _).
  destruct (hiddenState_styles e st) as (G1 & G2 & G3).
  split; [congruence|]. split; [congruence|]. split; [congruence|]. split.
  - intros name Hi Hw. rewrite <- (H4 name) by done.
    unfold hiddenState, setAttribute, getAttribute. simpl.
    destruct (attributes st !! IS_FOCUSABLE_ATTRIBUTE e) as [v|]; simpl.
    + destruct (negb (String.eqb v "")); simpl;
        rewrite ?lookup_insert_ne by done; done.
    + by rewrite lookup_insert_ne.
  - intros _. right. unfold hiddenState, setAttribute, getAttribute. simpl.
    by rewrite lookup_insert_eq.
Qed.

Lemma shownState_kept st st0 :
  kept st0 st → kept st0 (shownState e st).
Proof.
  intros (H1 & H2 & H3 & H4 & _).
  destruct (shownState_styles e st) as (G1 & G2 & G3).
  split; [congruence|]. split; [congruence|]. split; [congruence|]. split.
  - intros name Hi Hw. rewrite <- (H4 name) by done.
    unfold shownState, setAttribute, removeAttribute, getAttribute. simpl.
    destruct (attributes st !! WAS_FOCUSABLE_ATTRIBUTE) as [v|]; simpl.
    + destruct (negb (String.eqb v "")); simpl;
        rewrite ?lookup_delete_ne, ?lookup_insert_ne by done; done.
    + by rewrite lookup_delete_ne.
  - by rewrite shownState_visibility.
Qed.

Lemma hide_kept el w y st0 :
  kept st0 (getElem w y) → kept st0 (getElem (hide e el w) y).
Proof.
  intros H. destruct (decide (el = y)) as [->|Hne].
  - rewrite hide_eq. destruct (isHidden w y); [done|].
    rewrite getElem_setElem. by apply hiddenState_kept.
  - by rewrite getElem_hide_ne.
Qed.

Lemma show_kept el w y st0 :
  kept st0 (getElem w y) → kept st0 (getElem (show e el w).2 y).
Proof.
  intros H. destruct (decide (el = y)) as [->|Hne].
  - rewrite show_eq. destruct (isHidden w y); [simpl|done].
    rewrite getElem_setElem. by apply shownState_kept.
  - by rewrite getElem_show_ne.
Qed.

Lemma scanItem_kept o oRect cRect x i l w y st0 :
  kept st0 (getElem w y) → kept st0 (getElem (scanItem e o oRect cRect x i (l, w)).2.2 y).
Proof.
  intros H. scan_cases e o oRect cRect x i l w; simpl; try done;
    try (by apply hide_kept).
  all: unfold rememberAndShow; destruct (lastVisible _);
    match goal with |- context [show _ ?x' ?v] =>
      pose proof (show_kept x' v y st0 H) as Hs; destruct (show e x' v) end; exact Hs.
Qed.

Lemma holdsFocus_activeElement x w w' :
  activeElement w' = activeElement w → holdsFocus e x w' = holdsFocus e x w.
Proof. unfold holdsFocus. by intros ->. Qed.

Lemma hide_activeElement el w :
  holdsFocus e el w = false → activeElement (hide e el w) = activeElement w.
Proof.
  intros H. rewrite hide_eq. destruct (isHidden w el); [done|]. simpl.
  unfold refocus. by rewrite H.
Qed.

Lemma show_activeElement el w : activeElement (show e el w).2 = activeElement w.
Proof. rewrite show_eq. by destruct (isHidden w el). Qed.

Lemma scanItem_activeElement o oRect cRect x i l w :
  holdsFocus e x w = false →
  activeElement (scanItem e o oRect cRect x i (l, w)).2.2 = activeElement w.
Proof.
  intros H. scan_cases e o oRect cRect x i l w; simpl; try done;
    try (by apply hide_activeElement).
  all: unfold rememberAndShow; destruct (lastVisible _);
    match goal with |- context [show _ ?x' ?v] =>
      pose proof (show_activeElement x' v) as Hs; destruct (show e x' v) end; exact Hs.
Qed.

End Frame.

(** X2.  A pass never moves an ordinary item and touches none of its
    attributes but the two focusability markers: for every element other
    than the overflow item, the inline position and every other attribute
    are after the pass what they were before; an item the pass has hidden
    carries the focusability marker ["false"]; and an element that is not a
    child of the overflow container is left exactly as it was. *)
Theorem pass_frame (e : Env) (w : World) (y : Elem) :
  overflowItemRef e ≠ Some y →
  let w' := hideOverflowItems e w in
  style_position (getElem w' y) = style_position (getElem w y)
  ∧ style_left (getElem w' y) = style_left (getElem w y)
  ∧ style_right (getElem w' y) = style_right (getElem w y)
  ∧ (∀ name, name ≠ IS_FOCUSABLE_ATTRIBUTE e → name ≠ WAS_FOCUSABLE_ATTRIBUTE →
       attributes (getElem w' y) !! name = attributes (getElem w y) !! name)
  ∧ (isHidden w' y = true → isHidden w y = false →
     getAttribute (IS_FOCUSABLE_ATTRIBUTE e) (getElem w' y) = Some "false")
  ∧ ((∀ c, overflowContainerRef e = Some c → y ∉ children e c) →
     getElem w' y = getElem w y).
Proof.
  intros Hy w'. subst w'.
  destruct (overflowContainerRef e) as [c|] eqn:Hc;
    [|rewrite hideOverflowItems_unset_ref by auto; unfold isHidden; by intuition congruence].
  destruct (overflowItemRef e) as [o|] eqn:Ho;
    [|rewrite hideOverflowItems_unset_ref by auto; unfold isHidden; by intuition congruence].
  destruct (offsetMeasureRef e) as [m|] eqn:Hm;
    [|rewrite hideOverflowItems_unset_ref by auto; unfold isHidden; by intuition congruence].
  assert (o ≠ y) as Hoy by congruence.
  rewrite (hideOverflowItems_eq e c o m) by done.
  destruct (scan e c o (scrollToStart e w)) as [l w1] eqn:Hscan.
  unfold isHidden. rewrite finish_other by done.
  assert (Hk : style_position (getElem w1 y) = style_position (getElem w y)
     ∧ style_left (getElem w1 y) = style_left (getElem w y)
     ∧ style_right (getElem w1 y) = style_right (getElem w y)
     ∧ (∀ name, name ≠ IS_FOCUSABLE_ATTRIBUTE e → name ≠ WAS_FOCUSABLE_ATTRIBUTE →
          attributes (getElem w1 y) !! name = attributes (getElem w y) !! name)
     ∧ (String.eqb (style_visibility (getElem w1 y)) "hidden" = true →
        getElem w1 y = getElem w y
        ∨ getAttribute (IS_FOCUSABLE_ATTRIBUTE e) (getElem w1 y) = Some "false")).
  { replace w1 with (scan e c o (scrollToStart e w)).2 by (by rewrite Hscan).
    unfold scan.
    apply (forEachRight_invariant _
      (λ s, style_position (getElem s.2 y) = style_position (getElem w y)
        ∧ style_left (getElem s.2 y) = style_left (getElem w y)
        ∧ style_right (getElem s.2 y) = style_right (getElem w y)
        ∧ (∀ name, name ≠ IS_FOCUSABLE_ATTRIBUTE e → name ≠ WAS_FOCUSABLE_ATTRIBUTE →
             attributes (getElem s.2 y) !! name = attributes (getElem w y) !! name)
        ∧ (String.eqb (style_visibility (getElem s.2 y)) "hidden" = true →
           getElem s.2 y = getElem w y
           ∨ getAttribute (IS_FOCUSABLE_ATTRIBUTE e) (getElem s.2 y) = Some "false"))).
    - intros x i [l' v] _ H. by apply scanItem_kept.
    - simpl. rewrite scrollToStart_getElem. by auto 10. }
  destruct Hk as (K1 & K2 & K3 & K4 & K5).
  split; [done|]. split; [done|]. split; [done|]. split; [done|]. split.
  - intros Hh Hv. destruct (K5 Hh) as [Heq|]; [|done].
    rewrite Heq in Hh. congruence.
  - intros Hout. replace w1 with (scan e c o (scrollToStart e w)).2 by (by rewrite Hscan).
    unfold scan. rewrite forEachRight_other by (by apply Hout).
    apply scrollToStart_getElem.
Qed.

Lemma pass_frame_witness :
  getAttribute "data-is-focusable" (getElem (hideOverflowItems scenario fresh) 4)
  = Some "false".
Proof.
  assert (Hne : overflowItemRef scenario ≠ Some 4%positive) by discriminate.
  destruct (pass_frame scenario fresh 4 Hne) as (_ & _ & _ & _ & H & _).
  apply H; reflexivity.
Defined.

(** X3.  A pass leaves the focus alone when the focused element is outside
    the items it may hide: when no child of the overflow container and not
    the overflow item holds or contains the focused element (in particular
    when nothing is focused), the focus after the pass is the focus before
    it. *)
Theorem pass_keeps_outside_focus (e : Env) (w : World) :
  (∀ c x, overflowContainerRef e = Some c → x ∈ children e c → holdsFocus e x w = false) →
  (∀ o, overflowItemRef e = Some o → holdsFocus e o w = false) →
  activeElement (hideOverflowItems e w) = activeElement w.
Proof.
  intros Hkids Hitem.
  destruct (overflowContainerRef e) as [c|] eqn:Hc;
    [|by rewrite hideOverflowItems_unset_ref by auto].
  destruct (overflowItemRef e) as [o|] eqn:Ho;
    [|by rewrite hideOverflowItems_unset_ref by auto].
  destruct (offsetMeasureRef e) as [m|] eqn:Hm;
    [|by rewrite hideOverflowItems_unset_ref by auto].
  rewrite (hideOverflowItems_eq e c o m) by done.
  assert (Hscan : activeElement (scan e c o (scrollToStart e w)).2 = activeElement w).
  { unfold scan.
    apply (forEachRight_invariant _ (λ s, activeElement s.2 = activeElement w)).
    - intros x i [l v] Hx Hv. simpl in *. rewrite <- Hv.
      apply scanItem_activeElement.
      rewrite (holdsFocus_activeElement e x w v) by done. by apply (Hkids c).
    - simpl. unfold scrollToStart. by destruct (rtl e). }
  destruct (scan e c o (scrollToStart e w)) as [l w1]. simpl in Hscan.
  unfold finish. rewrite invokeOnOverflow_activeElement.
  destruct (isOverflowing l || overflowOpen e).
  - rewrite show_activeElement, setOverflowPosition_eq. simpl.
    by destruct (lastVisible l).
  - rewrite hide_activeElement; [done|].
    rewrite (holdsFocus_activeElement e o w) by done. by apply Hitem.
Qed.

Lemma pass_keeps_outside_focus_witness :
  activeElement (hideOverflowItems scenario fresh) = None.
Proof.
  apply (pass_keeps_outside_focus scenario fresh); reflexivity.
Defined.

Section FromVisible.
Variable e : Env.
Variables (o : Elem) (oRect cRect : ClientRect).

Local Abbreviation step := (scanItem e o oRect cRect).

Lemma forEachRight_overflowing cs l w :
  isOverflowing l = true → isOverflowing (forEachRight cs step (l, w)).1 = true.
Proof.
  intros H.
  apply (forEachRight_invariant step (λ s, isOverflowing s.1 = true)); [|done].
  intros x i [l' v] _ Hl. simpl in Hl.
  destruct (scanItem_summary e o oRect cRect x i l' v) as
    [(_ & ->)
    |[(_ & _ & Ho & _)
     |[(_ & _ & _ & _ & Ho & _)
      |[(_ & _ & _ & _ & Ho & _)
       |[(_ & _ & Hf & _)
        |(_ & _ & _ & Ho & _)]]]]]; simpl; congruence.
Qed.

(** A scan of items that are all visible: it hides items from the end until
    it meets one that stays, and stops there. *)
Lemma scan_from_visible cs :
  NoDup cs →
  ∀ l w,
    lastVisible l = None →
    (∀ y, y ∈ cs → y ≠ o → isHidden w y = false) →
    match lastVisible (forEachRight cs step (l, w)).1 with
    | None =>
        (∀ y, y ∈ cs → y ≠ o → isHidden (forEachRight cs step (l, w)).2 y = true)
        ∧ lastVisibleItemIndex (forEachRight cs step (l, w)).2 = lastVisibleItemIndex w
    | Some (x, _) =>
        ∃ L : nat,
          cs !! L = Some x ∧ x ≠ o
          ∧ lastVisibleItemIndex (forEachRight cs step (l, w)).2 = Some (Z.of_nat L)
          ∧ ∀ k y, cs !! k = Some y → y ≠ o →
              isHidden (forEachRight cs step (l, w)).2 y = bool_decide (L < k)%nat
    end
    ∧ (isOverflowing l = false → isOverflowing (forEachRight cs step (l, w)).1 = false →
       ∀ y, y ∈ cs → y ≠ o → isHidden (forEachRight cs step (l, w)).2 y = false).
Proof.
  induction cs as [|x cs IH] using rev_ind; intros Hnd l w Hl Hvis.
  { rewrite forEachRight_nil. simpl. rewrite Hl. split; [split; [|done]|].
    - intros y Hy. by apply elem_of_nil in Hy.
    - intros _ _ y Hy. by apply elem_of_nil in Hy. }
  apply NoDup_app in Hnd as (Hnd & Hx & _).
  assert (x ∉ cs) as Hxcs by (intros ?; eapply Hx; [done|by left]).
  assert (Hin : ∀ y, y ∈ cs ++ [x] → y ∈ cs ∨ y = x).
  { intros y [?|?%list_elem_of_singleton]%elem_of_app; auto. }
  assert (Hlk : ∀ k y, (cs ++ [x]) !! k = Some y →
            cs !! k = Some y ∨ (k = length cs ∧ y = x)).
  { intros k y [?|[? Hy]]%lookup_app_Some; [by left|right].
    apply list_lookup_singleton_Some in Hy as [? ?]. split; [lia|done]. }
  assert (Hvis' : ∀ y, y ∈ cs → y ≠ o → isHidden w y = false).
  { intros y Hy. apply Hvis. apply elem_of_app. by left. }
  assert (Hlift : ∀ l' w',
    lastVisible l' = None →
    (∀ y, y ∈ cs → y ≠ o → isHidden w' y = false) →
    lastVisibleItemIndex w' = lastVisibleItemIndex w →
    (x ≠ o → isHidden w' x = true) →
    match lastVisible (forEachRight cs step (l', w')).1 with
    | None =>
        (∀ y, y ∈ cs ++ [x] → y ≠ o → isHidden (forEachRight cs step (l', w')).2 y = true)
        ∧ lastVisibleItemIndex (forEachRight cs step (l', w')).2 = lastVisibleItemIndex w
    | Some (x0, _) =>
        ∃ L : nat,
          (cs ++ [x]) !! L = Some x0 ∧ x0 ≠ o
          ∧ lastVisibleItemIndex (forEachRight cs step (l', w')).2 = Some (Z.of_nat L)
          ∧ ∀ k y, (cs ++ [x]) !! k = Some y → y ≠ o →
              isHidden (forEachRight cs step (l', w')).2 y = bool_decide (L < k)%nat
    end).
  { intros l' w' Hl' Hv' Hi' Hx'.
    destruct (IH Hnd l' w' Hl' Hv') as [IH1 _].
    assert (Hxs : x ≠ o → isHidden (forEachRight cs step (l', w')).2 x = true).
    { intros Hxo. unfold isHidden. rewrite forEachRight_other by done. by apply Hx'. }
    destruct (lastVisible (forEachRight cs step (l', w')).1) as [[x0 r0]|].
    - destruct IH1 as (L & HL & Hx0 & Hidx & Hall).
      exists L. split; [by apply lookup_app_l_Some|]. split; [done|]. split; [done|].
      intros k y [Hk|[-> ->]]%Hlk Hyo; [by apply Hall|].
      rewrite Hxs by done. symmetry. apply bool_decide_eq_true.
      by apply lookup_lt_Some in HL.
    - destruct IH1 as [Hall Hidx]. split; [|congruence].
      intros y [Hy| ->]%Hin Hyo; [by apply Hall|by apply Hxs]. }
  rewrite forEachRight_snoc.
  destruct (scanItem_cases e o oRect cRect x (length cs) l w)
    as [(Hxo & E1)|[(Hxo & Hc & E1)|[(Hxo & Hc & Hov & _ & Hcol & E1)|
        [(Hxo & Hc & Hov & _ & Hcol & E1)|(Hxo & Hc & Hcond & E1)]]]];
    rewrite E1; clear E1.
  - split; [by apply Hlift|].
    intros Ho1 Ho2 y [Hy| ->]%Hin Hyo; [|done].
    by apply (IH Hnd l w Hl Hvis').
  - split.
    + apply Hlift; [done| |apply hide_index|intros; apply isHidden_hide].
      intros y Hy Hyo. rewrite isHidden_hide_ne; [by apply Hvis'|by intros ->].
    + intros _ Ho2. rewrite forEachRight_overflowing in Ho2; done.
  - split.
    + apply Hlift; [done| |apply hide_index|intros; apply isHidden_hide].
      intros y Hy Hyo. rewrite isHidden_hide_ne; [by apply Hvis'|by intros ->].
    + intros Ho1. congruence.
  - rewrite remember_then_continue by done.
    rewrite Hvis by (done || (apply elem_of_app; right; by left)). simpl.
    split; [|intros Ho1; congruence].
    exists (length cs). split; [by rewrite lookup_app_r, Nat.sub_diag|].
    split; [done|]. split; [done|].
    intros k y Hk Hyo.
    change (isHidden (setLastVisibleItemIndex (Z.of_nat (length cs)) w) y)
      with (isHidden w y).
    rewrite Hvis by (done || (apply list_elem_of_lookup; eauto)).
    symmetry. apply bool_decide_eq_false.
    apply lookup_lt_Some in Hk. rewrite length_app in Hk. simpl in Hk. lia.
  - rewrite remember_then_continue by done.
    rewrite Hvis by (done || (apply elem_of_app; right; by left)). simpl.
    split.
    + exists (length cs). split; [by rewrite lookup_app_r, Nat.sub_diag|].
      split; [done|]. split; [done|].
      intros k y Hk Hyo.
      change (isHidden (setLastVisibleItemIndex (Z.of_nat (length cs)) w) y)
        with (isHidden w y).
      rewrite Hvis by (done || (apply list_elem_of_lookup; eauto)).
      symmetry. apply bool_decide_eq_false.
      apply lookup_lt_Some in Hk. rewrite length_app in Hk. simpl in Hk. lia.
    + intros _ _ y Hy Hyo.
      change (isHidden (setLastVisibleItemIndex (Z.of_nat (length cs)) w) y)
        with (isHidden w y).
      by apply Hvis.
Qed.

End FromVisible.

(** X4.  Starting from a toolbar whose items are all visible (as they are
    after the first render), a pass leaves the visible items as an initial
    run of the children: when it shows the overflow item, the items up to
    the index it records are visible and the items after it are hidden (all
    of them when the index is -1); when it hides the overflow item, every
    item is visible.  The children of the overflow container are taken to
    be distinct elements. *)
Theorem visible_items_are_a_prefix (e : Env) (w : World) (c o m : Elem) :
  overflowContainerRef e = Some c →
  overflowItemRef e = Some o →
  offsetMeasureRef e = Some m →
  NoDup (children e c) →
  (∀ y, y ∈ children e c → y ≠ o → isHidden w y = false) →
  let w' := hideOverflowItems e w in
  ∃ n : Z,
    lastVisibleItemIndex w' = Some n
    ∧ (isHidden w' o = false →
       -1 ≤ n ∧ ∀ k y, children e c !! k = Some y → y ≠ o →
                  isHidden w' y = bool_decide (n < Z.of_nat k))
    ∧ (isHidden w' o = true →
       ∀ k y, children e c !! k = Some y → y ≠ o → isHidden w' y = false).
Proof.
  intros Hc Ho Hm Hnd Hvis w'. subst w'.
  rewrite (hideOverflowItems_eq e c o m) by done.
  destruct (scan_from_visible e o (getBoundingClientRect e o) (getBoundingClientRect e c)
              (children e c) Hnd initLocals (scrollToStart e w) eq_refl) as [S1 S2].
  { intros y Hy Hyo. rewrite scrollToStart_isHidden. by apply Hvis. }
  fold (scan e c o (scrollToStart e w)) in S1, S2.
  destruct (scan e c o (scrollToStart e w)) as [l w1]. simpl in S1, S2.
  assert (Hitems : ∀ y, y ≠ o → isHidden (finish e c o m (l, w1)) y = isHidden w1 y).
  { intros y Hy. unfold isHidden. by rewrite finish_other. }
  rewrite finish_overflowItem_hidden, finish_index.
  destruct (isOverflowing l || overflowOpen e) eqn:Hb; simpl.
  - destruct (lastVisible l) as [[x r]|].
    + destruct S1 as (L & HL & Hxo & Hidx & Hall).
      exists (Z.of_nat L). split; [done|]. split; [|done].
      intros _. split; [lia|]. intros k y Hk Hyo.
      rewrite Hitems, (Hall k y) by done.
      apply bool_decide_ext. lia.
    + destruct S1 as [Hall Hidx].
      exists (-1). split; [done|]. split; [|done].
      intros _. split; [lia|]. intros k y Hk Hyo.
      rewrite Hitems by done. rewrite Hall; [|apply list_elem_of_lookup; eauto|done].
      symmetry. apply bool_decide_eq_true. lia.
  - exists (items_length e - 1). split; [done|]. split; [done|].
    intros _ k y Hk Hyo. apply orb_false_iff in Hb as [Hb _].
    rewrite Hitems by done. apply S2; try done. apply list_elem_of_lookup; eauto.
Qed.

Lemma visible_items_are_a_prefix_witness :
  ∃ n : Z,
    lastVisibleItemIndex (hideOverflowItems narrow fresh) = Some n
    ∧ isHidden (hideOverflowItems narrow fresh) 3 = bool_decide (n < 1).
Proof.
  assert (Hnd : NoDup (children narrow 1)).
  { apply (bool_decide_eq_true_1 (NoDup [2; 3; 4; 5]%positive)). reflexivity. }
  assert (Hvis : ∀ y, y ∈ children narrow 1 → y ≠ 5%positive → isHidden fresh y = false).
  { intros y Hy _. change (y ∈ [2; 3; 4; 5]%positive) in Hy.
    rewrite !elem_of_cons, elem_of_nil in Hy.
    destruct Hy as [->|[->|[->|[->|[]]]]]; reflexivity. }
  destruct (visible_items_are_a_prefix narrow fresh 1 5 6 eq_refl eq_refl eq_refl Hnd Hvis)
    as (n & Hn & Hshown & _).
  exists n. split; [exact Hn|].
  destruct Hshown as [_ Hall]; [reflexivity|].
  apply (Hall 1%nat 3%positive); [reflexivity|discriminate].
Defined.

Section LastVisible.
Variable e : Env.
Variables (o : Elem) (oRect cRect : ClientRect).

Local Abbreviation step := (scanItem e o oRect cRect).
Local Abbreviation cropped x := (isItemOverflowing (getBoundingClientRect e x) cRect).
Local Abbreviation collides x :=
  (wouldItemCollide e x (getBoundingClientRect e x) oRect cRect).

(** The item a scan remembers as the last visible one: an item of the
    collection with its own rectangle, not cropped, and not colliding if it
    was found after an overflow. *)
Lemma scan_lastVisible cs w x r :
  lastVisible (forEachRight cs step (initLocals, w)).1 = Some (x, r) →
  r = getBoundingClientRect e x ∧ x ≠ o ∧ x ∈ cs ∧ cropped x = false
  ∧ ((∃ i, Collision i false ∈ probes (forEachRight cs step (initLocals, w)).1) →
     collides x = false).
Proof.
  assert (H : (lastVisible (forEachRight cs step (initLocals, w)).1 = None →
               ∀ i, Collision i false ∉ probes (forEachRight cs step (initLocals, w)).1)
    ∧ (∀ x r, lastVisible (forEachRight cs step (initLocals, w)).1 = Some (x, r) →
         r = getBoundingClientRect e x ∧ x ≠ o ∧ x ∈ cs ∧ cropped x = false
         ∧ ((∃ i, Collision i false ∈ probes (forEachRight cs step (initLocals, w)).1) →
            collides x = false))); [|by apply H].
  clear x r.
  apply (forEachRight_invariant step
    (λ s, (lastVisible s.1 = None → ∀ i, Collision i false ∉ probes s.1)
          ∧ (∀ x r, lastVisible s.1 = Some (x, r) →
               r = getBoundingClientRect e x ∧ x ≠ o ∧ x ∈ cs ∧ cropped x = false
               ∧ ((∃ i, Collision i false ∈ probes s.1) → collides x = false)))).
  - intros x0 i [l v] Hx0 [I1 I2]. simpl in I1, I2.
    assert (Hdrop : ∀ (p q : Probe) ps, p ≠ q → p ∈ ps ++ [q] → p ∈ ps).
    { intros p q ps Hpq [?|Hin]%elem_of_app; [done|].
      apply list_elem_of_singleton in Hin. done. }
    pose proof (rememberAndShow_world e x0 (getBoundingClientRect e x0) i) as Hr.
    destruct (scanItem_cases e o oRect cRect x0 i l v)
      as [(Hxo & ->)|[(Hxo & Hc & ->)|[(Hxo & Hc & Hov & Hnone & Hcol & ->)|
          [(Hxo & Hc & Hov & Hnone & Hcol & ->)|(Hxo & Hc & Hcond & ->)]]]]; simpl.
    + done.
    + split.
      * intros Hn j Hin%Hdrop; [by apply (I1 Hn j)|done].
      * intros x r Hl. destruct (I2 x r Hl) as (? & ? & ? & ? & Hcl).
        repeat (split; [done|]).
        intros [j Hin%Hdrop]; [|done]. apply Hcl. eauto.
    + split.
      * intros _ j Hin%Hdrop; [by apply (I1 Hnone j)|done].
      * intros x r Hl. congruence.
    + destruct (Hr (probe (Collision i false) l) v) as (_ & _ & _ & _ & Hl & _ & Hp).
      simpl in Hl, Hp. rewrite Hnone in Hl. simpl in Hl.
      rewrite Hl, Hp. split; [done|].
      intros x r [= <- <-]. done.
    + destruct (Hr l v) as (_ & _ & _ & _ & Hl & _ & Hp).
      rewrite Hl, Hp. split; [done|].
      destruct (lastVisible l) as [[x1 r1]|] eqn:Hl1; simpl.
      * intros x r [= <- <-]. by apply I2.
      * intros x r [= <- <-]. repeat (split; [done|]).
        intros [j Hin]. by destruct (I1 eq_refl j).
  - simpl. split; [|done]. intros _ j Hin. by apply elem_of_nil in Hin.
Qed.

End LastVisible.

Section Indicator.
Variable e : Env.

Lemma shownState_attributes st st' :
  attributes st = attributes st' →
  attributes (shownState e st) = attributes (shownState e st').
Proof.
  intros H. unfold shownState, getAttribute, setAttribute, removeAttribute. simpl.
  rewrite H. destruct (attributes st' !! WAS_FOCUSABLE_ATTRIBUTE) as [v|]; simpl.
  - destruct (negb (String.eqb v "")); done.
  - done.
Qed.

(** The overflow item at the end of a pass. *)
Lemma finish_overflowItem c o m l w :
  isOverflowing l || overflowOpen e = true →
  style_position (getElem (finish e c o m (l, w)) o) = "absolute"
  ∧ (if rtl e then style_right (getElem (finish e c o m (l, w)) o)
     else style_left (getElem (finish e c o m (l, w)) o))
    = landing e (lastVisible l) (getBoundingClientRect e c)
        (positioningOffset e (getBoundingClientRect e c) (getBoundingClientRect e m))
  ∧ (if rtl e then style_left (getElem (finish e c o m (l, w)) o)
     else style_right (getElem (finish e c o m (l, w)) o))
    = (if rtl e then style_left (getElem w o) else style_right (getElem w o))
  ∧ attributes (getElem (finish e c o m (l, w)) o)
    = attributes (if isHidden w o then shownState e (getElem w o) else getElem w o).
Proof.
  intros Hb. unfold finish. rewrite Hb, invokeOnOverflow_getElem.
  set (cRect := getBoundingClientRect e c).
  set (off := positioningOffset e cRect (getBoundingClientRect e m)).
  destruct (positioned e o (lastVisible l) cRect off w) as (_ & Hpos & Hland & _).
  split; [done|]. split; [done|].
  rewrite show_eq, setOverflowPosition_eq. cbv zeta.
  set (w2 := match lastVisible l with
             | Some _ => setElem o (setPosition "absolute" (getElem w o)) w
             | None => setLastVisibleItemIndex (-1)
                         (setElem o (setPosition "absolute" (getElem w o)) w)
             end).
  assert (Hw2 : getElem w2 o = setPosition "absolute" (getElem w o)).
  { unfold w2. destruct (lastVisible l);
      rewrite ?getElem_setLastVisibleItemIndex, getElem_setElem; done. }
  rewrite isHidden_setElem, Hw2.
  assert (Hvis : String.eqb
            (style_visibility
               ((if rtl e then setRight else setLeft) (landing e (lastVisible l) cRect off)
                  (setPosition "absolute" (getElem w o)))) "hidden"
          = isHidden w o) by (by destruct (rtl e)).
  rewrite Hvis.
  destruct (isHidden w o) eqn:Hh; simpl; rewrite !getElem_setElem.
  - destruct (shownState_styles e
                ((if rtl e then setRight else setLeft) (landing e (lastVisible l) cRect off)
                   (setPosition "absolute" (getElem w o)))) as (_ & G2 & G3).
    split.
    + destruct (rtl e); [rewrite G2|rewrite G3]; done.
    + apply shownState_attributes. by destruct (rtl e).
  - split; destruct (rtl e); done.
Qed.

End Indicator.

(** X5.  Whenever a pass shows the overflow item it positions it
    absolutely and writes its inline offset on one side only, [left] in a
    left-to-right toolbar and [right] in a right-to-left one; the offset on
    the other side is left as it was.  The offset is taken from the item at
    the index the pass records: left to right it is the right edge of that
    item minus the left edge of the container, plus the item's right margin,
    plus the positioning offset (the left edge of the container minus the
    left edge of the probe); right to left it is the right edge of the
    container minus the left edge of that item, plus the item's left margin,
    plus the positioning offset (the right edge of the probe minus the right
    edge of the container).  When the pass records -1 the offset is the
    positioning offset alone.  The children of the overflow container are
    taken to be distinct elements. *)
Theorem indicator_position (e : Env) (w : World) (c o m : Elem) :
  overflowContainerRef e = Some c →
  overflowItemRef e = Some o →
  offsetMeasureRef e = Some m →
  NoDup (children e c) →
  let w' := hideOverflowItems e w in
  let written := if rtl e then style_right (getElem w' o) else style_left (getElem w' o) in
  let offset :=
    if rtl e
    then r_right (getBoundingClientRect e m) - r_right (getBoundingClientRect e c)
    else r_left (getBoundingClientRect e c) - r_left (getBoundingClientRect e m) in
  isHidden w' o = false →
  style_position (getElem w' o) = "absolute"
  ∧ (if rtl e then style_left (getElem w' o) else style_right (getElem w' o))
    = (if rtl e then style_left (getElem w o) else style_right (getElem w o))
  ∧ ((lastVisibleItemIndex w' = Some (-1) ∧ written = px offset)
     ∨ (∃ (L : nat) (x : Elem),
          lastVisibleItemIndex w' = Some (Z.of_nat L)
          ∧ children e c !! L = Some x ∧ x ≠ o
          ∧ written
            = px (if rtl e
                  then r_right (getBoundingClientRect e c)
                       - r_left (getBoundingClientRect e x)
                       + orZero (marginLeft e x) + offset
                  else r_right (getBoundingClientRect e x)
                       - r_left (getBoundingClientRect e c)
                       + orZero (marginRight e x) + offset))).
Proof.
  intros Hc Ho Hm Hnd w' written offset. subst w' written offset.
  rewrite (hideOverflowItems_eq e c o m) by done.
  pose proof (scan_first_visible e o (getBoundingClientRect e o) (getBoundingClientRect e c)
                (children e c) Hnd initLocals (scrollToStart e w) eq_refl) as Hlv.
  assert (Ho' : getElem (scan e c o (scrollToStart e w)).2 o = getElem w o).
  { unfold scan.
    rewrite <- (scrollToStart_getElem e w o).
    apply (forEachRight_invariant _
             (λ s, getElem s.2 o = getElem (scrollToStart e w) o)); [|done].
    intros x i [l v] _ Hv. simpl in *. rewrite <- Hv.
    destruct (decide (x = o)) as [->|Hne]; [by rewrite scanItem_skip|].
    by apply scanItem_other. }
  fold (scan e c o (scrollToStart e w)) in Hlv.
  destruct (scan e c o (scrollToStart e w)) as [l w1]. simpl in Hlv, Ho'.
  rewrite finish_overflowItem_hidden, finish_index. intros Hb%negb_false_iff.
  rewrite Hb.
  destruct (finish_overflowItem e c o m l w1 Hb) as (F1 & F2 & F3 & _).
  split; [done|]. split; [by rewrite F3, Ho'|].
  rewrite F2. unfold landing, positioningOffset. simpl.
  destruct (lastVisible l) as [[x r]|].
  - right. destruct (Hlv x r eq_refl) as (L & HL & Hxo & -> & Hidx & _).
    exists L, x. split; [done|]. split; [done|]. split; [done|].
    by destruct (rtl e).
  - left. split; [done|]. by destruct (rtl e).
Qed.

Lemma indicator_position_witness :
  style_position (getElem (hideOverflowItems mirrored fresh) 5) = "absolute"
  ∧ style_left (getElem (hideOverflowItems mirrored fresh) 5)
    = style_left (getElem fresh 5).
Proof.
  assert (Hnd : NoDup (children mirrored 1)).
  { apply (bool_decide_eq_true_1 (NoDup [2; 3; 4; 5]%positive)). reflexivity. }
  destruct (indicator_position mirrored fresh 1 5 6 eq_refl eq_refl eq_refl Hnd)
    as (Hpos & Hside & _).
  - reflexivity.
  - split; [exact Hpos|exact Hside].
Defined.

(** X12.  The last visible item a scan settles on lies within the
    container; and when the scan settled on it after an overflow, having
    tested it for collision, there is room next to it for the overflow item:
    its trailing edge, its trailing margin and the width of the overflow
    item stay within the container. *)
Theorem last_visible_leaves_room (e : Env) (w : World) (c o : Elem) (x : Elem)
    (r : ClientRect) :
  lastVisible (scan e c o w).1 = Some (x, r) →
  (r_left (getBoundingClientRect e c) ≤ r_left (getBoundingClientRect e x)
   ∧ r_right (getBoundingClientRect e x) ≤ r_right (getBoundingClientRect e c))
  ∧ ((∃ i, Collision i false ∈ probes (scan e c o w).1) →
     if rtl e
     then r_left (getBoundingClientRect e c)
          ≤ r_left (getBoundingClientRect e x) - r_width (getBoundingClientRect e o)
            - orZero (marginLeft e x)
     else r_right (getBoundingClientRect e x) + r_width (getBoundingClientRect e o)
          + orZero (marginRight e x)
          ≤ r_right (getBoundingClientRect e c)).
Proof.
  intros Hl.
  destruct (scan_lastVisible e o (getBoundingClientRect e o) (getBoundingClientRect e c)
              (children e c) w x r Hl) as (_ & _ & _ & Hc & Hcol).
  split.
  - unfold isItemOverflowing in Hc. apply orb_false_iff in Hc as [H1 H2].
    apply Z.ltb_ge in H1, H2. lia.
  - intros Hi. specialize (Hcol Hi). unfold wouldItemCollide in Hcol.
    destruct (rtl e); by apply Z.ltb_ge in Hcol.
Qed.

Lemma last_visible_leaves_room_witness :
  r_right (getBoundingClientRect scenario 3) + r_width (getBoundingClientRect scenario 5)
  + orZero (marginRight scenario 3)
  ≤ r_right (getBoundingClientRect scenario 1).
Proof.
  destruct (last_visible_leaves_room scenario fresh 1 5 3 (scenarioRect 3) eq_refl)
    as [_ H].
  apply H. exists 1%nat.
  change (Collision 1 false ∈ [Overflow 2; Collision 1 false]).
  apply list_elem_of_In. simpl. auto.
Defined.
